(** * Mailbox queue, wildcard sentinel and proxy registry of the actor framework

    A shallow embedding of [caf::detail::thread_safe_queue] (a doubly linked
    list with a dummy head node, guarded by one mutex), of [cppa::any_type]
    and of the publish/connect identity rules of the middleman.

    The queue is modelled on an explicit store of nodes: every [new node]
    allocates a fresh address, every pointer write is an update of the store,
    and the [unique_ptr] that owns a removed node deletes it.  All operations
    run inside the critical section of [lock_], so one call is one atomic
    step of the model. *)

From stdpp Require Import gmap list fin_maps fin_sets strings.

(** ** [cppa::any_type] *)

Module AnyType.

(** [struct any_type] has no members: one value, [any_val]. *)
Inductive any_type : Type := any_val.

(** [operator==(const any_type&, const any_type&)]. *)
Definition eq_any_any (_ _ : any_type) : bool := true.

(** [template<typename T> operator==(const T&, const any_type&)]. *)
Definition eq_T_any {T : Type} (_ : T) (_ : any_type) : bool := true.

(** [template<typename T> operator==(const any_type&, const T&)]. *)
Definition eq_any_T {T : Type} (_ : any_type) (_ : T) : bool := true.

(** [operator!=(const any_type&, const any_type&)]. *)
Definition ne_any_any (_ _ : any_type) : bool := false.

(** [template<typename T> operator!=(const T&, const any_type&)]. *)
Definition ne_T_any {T : Type} (_ : T) (_ : any_type) : bool := false.

(** [template<typename T> operator!=(const any_type&, const T&)]. *)
Definition ne_any_T {T : Type} (_ : any_type) (_ : T) : bool := false.

End AnyType.

(** ** [caf::detail::thread_safe_queue<T>] *)

Module Queue.

(** [node_pointer]: an address of the node store; [nullptr] is [None]. *)
Definition node_pointer : Set := nat.

Section thread_safe_queue.

Context {T : Type}.

(** [struct node]: the payload pointer and the two links.  A null [value]
    marks the dummy head. *)
Record node : Type := Node {
  value : option T;
  next : option node_pointer;
  prev : option node_pointer
}.

Definition set_value (v : option T) (n : node) : node :=
  Node v (next n) (prev n).

Definition set_next (p : option node_pointer) (n : node) : node :=
  Node (value n) p (prev n).

Definition set_prev (p : option node_pointer) (n : node) : node :=
  Node (value n) (next n) p.

(** The object: the nodes it owns, [head_] and [tail_]. *)
Record thread_safe_queue : Type := Queue {
  nodes : gmap node_pointer node;
  head_ : node_pointer;
  tail_ : node_pointer
}.

(** [new node(val)]: an address that is not live, holding
    [value = val], [next = prev = nullptr]. *)
Definition new_node (h : gmap node_pointer node) : node_pointer :=
  fresh (dom h).

(** [p->next.load()] and friends; reading through a dangling pointer
    yields [None]. *)
Definition load_next (h : gmap node_pointer node) (p : node_pointer)
  : option node_pointer := h !! p ≫= next.

Definition load_prev (h : gmap node_pointer node) (p : node_pointer)
  : option node_pointer := h !! p ≫= prev.

Definition load_value (h : gmap node_pointer node) (p : node_pointer)
  : option T := h !! p ≫= value.

(** The constructor: one dummy node, [head_ = tail_ = ptr]. *)
Definition make : thread_safe_queue :=
  let ptr := new_node ∅ in
  Queue {[ ptr := Node None None None ]} ptr ptr.

(** [append<NotifyConsumer>(value)].  The result pairs the new state with
    whether [cv_.notify_one()] was called. *)
Definition append_ (NotifyConsumer : bool) (val : T) (q : thread_safe_queue)
  : thread_safe_queue * bool :=
  let tmp := new_node (nodes q) in
  let h := <[ tmp := Node (Some val) None None ]> (nodes q) in
  let tail := tail_ q in
  let h := alter (set_next (Some tmp)) tail h in
  let h := alter (set_prev (Some tail)) tmp h in
  let notified := NotifyConsumer && bool_decide (tail = head_ q) in
  (Queue h (head_ q) tmp, notified).

Definition append : T → thread_safe_queue → thread_safe_queue * bool :=
  append_ true.

Definition internal_append : T → thread_safe_queue → thread_safe_queue * bool :=
  append_ false.

(** [prepend<NotifyConsumer>(value)]. *)
Definition prepend_ (NotifyConsumer : bool) (val : T) (q : thread_safe_queue)
  : thread_safe_queue * bool :=
  let tmp := new_node (nodes q) in
  let h := <[ tmp := Node (Some val) None None ]> (nodes q) in
  let head := head_ q in
  match load_next h head with
  | Some nxt =>
      let h := alter (set_prev (Some head)) tmp h in
      let h := alter (set_next (Some tmp)) head h in
      let h := alter (set_next (Some nxt)) tmp h in
      let h := alter (set_prev (Some tmp)) nxt h in
      (Queue h head (tail_ q), false)
  | None =>
      let h := alter (set_prev (Some head)) tmp h in
      let h := alter (set_next (Some tmp)) head h in
      (Queue h head tmp, NotifyConsumer)
  end.

Definition prepend : T → thread_safe_queue → thread_safe_queue * bool :=
  prepend_ true.

Definition internal_prepend : T → thread_safe_queue → thread_safe_queue * bool :=
  prepend_ false.

(** [try_take_head_impl(pred)].  [pred] receives the lock guard and a
    reference to [head->next]; what it may do through the guard (wait on
    [cv_]) is an effect on a world [W].  The old dummy is deleted by
    [unique_node_ptr head]; the first real node becomes the new dummy.
    [pred] answering "not empty" on a null [head->next] violates
    [CAF_ASSERT(next != nullptr)]; no caller's predicate does that, and the
    model then leaves the queue alone. *)
Definition try_take_head_impl {W : Type}
    (pred : W → option node_pointer → bool * W)
    (q : thread_safe_queue) (w : W) : option T * thread_safe_queue * W :=
  let head := head_ q in
  let '(is_empty, w) := pred w (load_next (nodes q) head) in
  if is_empty then (None, q, w)
  else
    match load_next (nodes q) head with
    | Some nxt =>
        let result := load_value (nodes q) nxt in
        let h := alter (set_value None) nxt (nodes q) in
        let h := alter (set_prev None) nxt h in
        (result, Queue (delete head h) nxt (tail_ q), w)
    | None => (None, q, w)
    end.

(** [try_take_head()]: the predicate only tests the pointer. *)
Definition try_take_head (q : thread_safe_queue) : option T * thread_safe_queue :=
  (try_take_head_impl
     (λ (guard : unit) ptr, (bool_decide (ptr = None), guard)) q tt).1.

(** [try_take_tail()].  A null [prev] on a node other than the dummy cannot
    happen in a queue built by this class; the model then leaves the queue
    alone. *)
Definition try_take_tail (q : thread_safe_queue) : option T * thread_safe_queue :=
  let tail := tail_ q in
  if bool_decide (tail = head_ q) then (None, q)
  else
    let result := load_value (nodes q) tail in
    match load_prev (nodes q) tail with
    | Some prv =>
        let h := alter (set_next None) prv (nodes q) in
        (result, Queue (delete tail h) (head_ q) prv)
    | None => (None, q)
    end.

(** [empty()]. *)
Definition empty (q : thread_safe_queue) : bool :=
  bool_decide (head_ q = tail_ q).

(** *** The timed take

    [std::condition_variable::wait_for(lock, rel_time, pred)] is, by the
    C++ standard, [wait_until(lock, now + rel_time, pred)], which is

      while (!pred()) if (wait_until(lock, abs_time) == timeout) return pred();
      return true;

    The world of the predicate is the clock, read in ticks of the clock's
    period.  With no other thread there is nobody to notify and nobody to
    change what [pred] reads, so [pred] is a constant and the plain
    [wait_until] ends at the next spurious wake-up (the instants [wakeups],
    an oracle of the environment) or at [abs_time]; a deadline that has
    passed already is a timeout at once.

    The clock counts in a signed 64-bit integer.  [rel_time] is the
    duration in ticks, of either sign; a deadline [now + rel_time] beyond
    the range wraps around, as the two's complement addition of the
    implementation does. *)
Definition int64_wrap (z : Z) : Z :=
  ((z + 2 ^ 63) `mod` 2 ^ 64 - 2 ^ 63)%Z.

Fixpoint wait_until (wakeups : list Z) (abs_time : Z) (pred : bool)
    (now : Z) : bool * Z :=
  if pred then (true, now)
  else
    match wakeups with
    | [] => (pred, Z.max now abs_time)
    | t :: wakeups =>
        if decide (abs_time ≤ t)%Z then (pred, Z.max now abs_time)
        else wait_until wakeups abs_time pred (Z.max now t)
    end.

Definition wait_for (wakeups : list Z) (rel_time : Z) (pred : bool)
    (now : Z) : bool * Z :=
  wait_until wakeups (int64_wrap (now + rel_time)) pred now.

(** [try_take_head(rel_time)]: the predicate handed to
    [try_take_head_impl] is the result of
    [cv_.wait_for(guard, rel_time, [&] { return ptr == nullptr; })]. *)
Definition try_take_head_for (wakeups : list Z) (rel_time : Z)
    (q : thread_safe_queue) (now : Z) : option T * thread_safe_queue * Z :=
  try_take_head_impl
    (λ now ptr, wait_for wakeups rel_time (bool_decide (ptr = None)) now)
    q now.

(** *** The sequence of items a queue holds

    Read off the store by following [next] from the dummy head; the fuel is
    the number of live nodes, which bounds the length of any list without a
    cycle. *)
Fixpoint walk (h : gmap node_pointer node) (fuel : nat)
    (p : option node_pointer) : list T :=
  match fuel, p with
  | S fuel, Some l =>
      match h !! l with
      | Some n =>
          match value n with
          | Some v => v :: walk h fuel (next n)
          | None => walk h fuel (next n)
          end
      | None => []
      end
  | _, _ => []
  end.

Definition items (q : thread_safe_queue) : list T :=
  walk (nodes q) (size (nodes q)) (load_next (nodes q) (head_ q)).

(** *** The class invariant

    [chain h pv l val cells]: in store [h] the node at [l] holds [val], its
    [prev] is [pv], and its [next] leads through the nodes [cells] (address
    and payload of each) to a null [next]. *)
Fixpoint chain (h : gmap node_pointer node) (pv : option node_pointer)
    (l : node_pointer) (val : option T) (cells : list (node_pointer * T)) : Prop :=
  match cells with
  | [] => h !! l = Some (Node val None pv)
  | (l', v) :: cells =>
      h !! l = Some (Node val (Some l') pv) ∧ chain h (Some l) l' (Some v) cells
  end.

(** [head_] is a dummy without payload or predecessor, the nodes are
    pairwise distinct, and [tail_] is the last of them. *)
Definition repr (q : thread_safe_queue) (cells : list (node_pointer * T)) : Prop :=
  chain (nodes q) None (head_ q) None cells
  ∧ NoDup (head_ q :: cells.*1)
  ∧ tail_ q = default (head_ q) (last cells.*1).

Definition wf (q : thread_safe_queue) : Prop := ∃ cells, repr q cells.

(** *** Histories of calls on one queue *)
Inductive op : Type :=
  | Append (v : T)
  | Prepend (v : T)
  | TakeHead
  | TakeTail.

(** One call; the second component is what a take returned. *)
Definition step (q : thread_safe_queue) (o : op) : thread_safe_queue * option T :=
  match o with
  | Append v => ((append v q).1, None)
  | Prepend v => ((prepend v q).1, None)
  | TakeHead => ((try_take_head q).2, (try_take_head q).1)
  | TakeTail => ((try_take_tail q).2, (try_take_tail q).1)
  end.

(** A history, with the items the takes returned, in order. *)
Fixpoint run (q : thread_safe_queue) (ops : list op) : thread_safe_queue * list T :=
  match ops with
  | [] => (q, [])
  | o :: ops =>
      let '(q, r) := step q o in
      let '(q, rs) := run q ops in
      (q, option_list r ++ rs)
  end.

Definition inserted_by (o : op) : option T :=
  match o with
  | Append v | Prepend v => Some v
  | TakeHead | TakeTail => None
  end.

(** The items a history inserted, in order of insertion. *)
Definition inserted (ops : list op) : list T := omap inserted_by ops.

Definition is_take_tail (o : op) : bool :=
  match o with TakeTail => true | _ => false end.

(** An occurrence of [x] in [l] is followed, not necessarily at once, by an
    occurrence of [y]. *)
Definition before (x y : T) (l : list T) : Prop := [x; y] `sublist_of` l.

(** *** The destructor

    [~thread_safe_queue()]: starting at [head_], each round takes ownership
    of the node at [ptr], reads its [next] and deletes the node.  The loop
    ends at a null [ptr]; [None] is a loop still running when the fuel is
    spent. *)
Fixpoint destroy_nodes (fuel : nat) (h : gmap node_pointer node)
    (ptr : option node_pointer) : option (gmap node_pointer node) :=
  match ptr with
  | None => Some h
  | Some l =>
      match fuel with
      | 0 => None
      | S fuel => destroy_nodes fuel (delete l h) (load_next h l)
      end
  end.

Definition destructor (fuel : nat) (q : thread_safe_queue)
  : option (gmap node_pointer node) :=
  destroy_nodes fuel (nodes q) (Some (head_ q)).

(** The assertions [prepend] makes once it holds the lock:
    [CAF_ASSERT(head != tail_)] when [head->next] is not null and
    [CAF_ASSERT(head == tail_)] when it is.  The node allocated before is
    not linked yet, so they read the queue as the call found it. *)
Definition prepend_asserts (q : thread_safe_queue) : bool :=
  match load_next (nodes q) (head_ q) with
  | Some _ => bool_decide (head_ q ≠ tail_ q)
  | None => bool_decide (head_ q = tail_ q)
  end.

(** The queue owns its nodes and nothing else: the store holds exactly the
    dummy and one node per item. *)
Definition owned (q : thread_safe_queue) : Prop :=
  ∃ cells, repr q cells ∧ dom (nodes q) = list_to_set (head_ q :: cells.*1).

(** *** The double-ended sequence the queue stands for

    One call on the sequence of items alone: [append] adds at the back,
    [prepend] at the front, [try_take_head] takes the first and
    [try_take_tail] the last, each returning null on the empty sequence. *)
Definition deque_step (l : list T) (o : op) : list T * option T :=
  match o with
  | Append v => (l ++ [v], None)
  | Prepend v => (v :: l, None)
  | TakeHead => (tail l, head l)
  | TakeTail => (removelast l, last l)
  end.

End thread_safe_queue.

Arguments node : clear implicits.
Arguments thread_safe_queue : clear implicits.
Arguments op : clear implicits.
Arguments append_ : simpl never.
Arguments prepend_ : simpl never.
Arguments try_take_head : simpl never.
Arguments try_take_tail : simpl never.

End Queue.

(** ** Proxy registry and publish/connect

    The middleman itself is not among the sources at hand; only its test
    [remote_actor_udp.cpp] is.  This module follows the specification's
    sections 3, 4.2 and 4.3. *)

Module Middleman.

(** Modelled from the spec: the identifiers, error kinds and lifecycle
    states of sections 3 and 7. *)
Definition NodeId : Set := nat.
Definition ActorId : Set := nat.
Definition ActorAddress : Set := NodeId * ActorId.
Definition Port : Set := nat.

Inductive Error : Set :=
  | NodeUnreachable
  | PortInUse
  | HandshakeTypeMismatch
  | Timeout
  | NetworkError.

Inductive Result (A : Type) : Type :=
  | Ok (a : A)
  | Err (e : Error).
Arguments Ok {A} a.
Arguments Err {A} e.

Inductive Lifecycle : Set :=
  | alive
  | exited (reason : nat).

(** Modelled from the spec: the Proxy object (section 3), of which the
    claims need the address and the lifecycle state. *)
Record Proxy : Set := {
  address : ActorAddress;
  state : Lifecycle
}.

(** The identity of a Proxy object, as opposed to its address. *)
Definition ProxyRef : Set := nat.

(** Modelled from the spec: the Proxy Registry (section 4.2): the Proxy
    objects it owns, its entries by address, and the nodes it has a live
    Connection to. *)
Record ProxyRegistry : Type := {
  proxies : gmap ProxyRef Proxy;
  entries : gmap ActorAddress ProxyRef;
  connections : gset NodeId
}.

Definition empty_registry : ProxyRegistry :=
  {| proxies := ∅; entries := ∅; connections := ∅ |}.

(** Modelled from the spec: [get_or_create(address)] (section 4.2), absent
    from the sources: "if an entry exists, return it; otherwise atomically
    create and insert one", failing "with NodeUnreachable rather than
    fabricating a Proxy" when the owning Connection is absent.  The whole
    call is one step, as it runs under the registry's lock. *)
Definition get_or_create (a : ActorAddress) (r : ProxyRegistry)
  : Result (ProxyRef * ProxyRegistry) :=
  match entries r !! a with
  | Some p => Ok (p, r)
  | None =>
      if decide (a.1 ∈ connections r) then
        let p := fresh (dom (proxies r)) in
        Ok (p, {| proxies := <[ p := {| address := a; state := alive |} ]> (proxies r);
                  entries := <[ a := p ]> (entries r);
                  connections := connections r |})
      else Err NodeUnreachable
  end.

(** Modelled from the spec: an actor as the handshake describes it
    (section 6), its ActorId and its declared message-type signature. *)
Record LocalActor : Type := {
  actor_id : ActorId;
  signature : gset nat
}.

(** Modelled from the spec: one running system as its peers see it, its
    NodeId and the endpoints it has bound, each with the actor published
    there (sections 3 and 4.3). *)
Record System : Type := {
  node : NodeId;
  endpoints : gmap Port LocalActor
}.

(** Modelled from the spec: [publish(local_actor, requested_port, ...)]
    (section 4.3), absent from the sources: "binds a new listening
    endpoint.  Requesting port 0 yields an OS-assigned ephemeral port",
    one that is not bound yet; "fails with PortInUse if an explicit port is
    already bound".  The bind address and the reliability class play no
    part in the port and are left out. *)
Definition publish (a : LocalActor) (requested_port : Port) (s : System)
  : Result (Port * System) :=
  if decide (requested_port = 0) then
    let p := fresh ({[ 0 ]} ∪ dom (endpoints s)) in
    Ok (p, {| node := node s; endpoints := <[ p := a ]> (endpoints s) |})
  else
    match endpoints s !! requested_port with
    | Some _ => Err PortInUse
    | None =>
        Ok (requested_port,
            {| node := node s; endpoints := <[ requested_port := a ]> (endpoints s) |})
    end.

(** Modelled from the spec: the handshake of [connect] (section 4.3): the
    peer "responds with its NodeId, the ActorId bound to that port, and the
    actor's declared message-type signature"; no system at the host is an
    I/O failure, nothing bound at the port is no response. *)
Definition handshake (net : gmap nat System) (host : nat) (port : Port)
  : Result (ActorAddress * gset nat) :=
  match net !! host with
  | None => Err NodeUnreachable
  | Some s =>
      match endpoints s !! port with
      | None => Err Timeout
      | Some a => Ok ((node s, actor_id a), signature a)
      end
  end.

(** Modelled from the spec: [connect(host, port)] (section 4.3), absent
    from the sources: after the handshake "the caller resolves the
    resulting ActorAddress through the Proxy Registry"; it "fails with
    HandshakeTypeMismatch if the caller's expected signature is
    incompatible" ([expects] is the caller's test of the declared
    signature).  A Connection to the peer "is created on first
    publish/connect for a node". *)
Definition connect (net : gmap nat System) (expects : gset nat → bool)
    (host : nat) (port : Port) (r : ProxyRegistry)
  : Result (ProxyRef * ProxyRegistry) :=
  match handshake net host port with
  | Err e => Err e
  | Ok (a, sig) =>
      if expects sig then
        get_or_create a
          {| proxies := proxies r;
             entries := entries r;
             connections := {[ a.1 ]} ∪ connections r |}
      else Err HandshakeTypeMismatch
  end.

(** The state a call leaves: the new one, or the old one when it failed
    ("handshake-level failures leave no registry entries behind"). *)
Definition after {A S : Type} (res : Result (A * S)) (old : S) : S :=
  match res with
  | Ok (_, s) => s
  | Err _ => old
  end.

(** Calls of other threads between two calls of interest: [connect]s on a
    registry, [publish]es on a system, each an atomic step. *)
Definition connect_all (net : gmap nat System)
    (calls : list ((gset nat → bool) * nat * Port)) (r : ProxyRegistry)
  : ProxyRegistry :=
  foldl (λ r '(expects, host, port), after (connect net expects host port r) r)
    r calls.

Definition publish_all (calls : list (LocalActor * Port)) (s : System) : System :=
  foldl (λ s '(a, port), after (publish a port s) s) s calls.

(** The registry's invariant (section 3, invariant 1): the entries and the
    Proxy objects correspond one to one. *)
Definition registry_ok (r : ProxyRegistry) : Prop :=
  ∀ a p, entries r !! a = Some p ↔
         ∃ px, proxies r !! p = Some px ∧ address px = a.

End Middleman.

(** ** [caf::config_option] and [caf::config_option_set] *)

Module ConfigOption.

(** [name_.c_str()] read as a C string: the characters before the first
    NUL. *)
Fixpoint c_str (s : string) : string :=
  match s with
  | EmptyString => EmptyString
  | String c s =>
      if decide (c = Ascii.zero) then EmptyString else String c (c_str s)
  end.

(** [class config_option]: its four member variables. *)
Record config_option : Set := {
  category_ : string;
  name_ : string;
  explanation_ : string;
  short_name_ : Ascii.ascii
}.

(** [name()] returns [name_.c_str()]. *)
Definition name (opt : config_option) : string := c_str (name_ opt).

(** [short_name()]. *)
Definition short_name (opt : config_option) : Ascii.ascii := short_name_ opt.

(** [config_option_set::find(const std::string& long_name)] over [opts_]:
    the first option whose [name()] compares equal, with its position in
    [opts_] standing for the pointer returned; [None] is [nullptr]. *)
Fixpoint find_from (i : nat) (opts_ : list config_option) (long_name : string)
  : option (nat * config_option) :=
  match opts_ with
  | [] => None
  | opt :: opts_ =>
      if decide (name opt = long_name) then Some (i, opt)
      else find_from (S i) opts_ long_name
  end.

Definition find (opts_ : list config_option) (long_name : string)
  : option (nat * config_option) := find_from 0 opts_ long_name.

(** [config_option_set::find(char short_name)]. *)
Fixpoint find_short_from (i : nat) (opts_ : list config_option) (c : Ascii.ascii)
  : option (nat * config_option) :=
  match opts_ with
  | [] => None
  | opt :: opts_ =>
      if decide (short_name opt = c) then Some (i, opt)
      else find_short_from (S i) opts_ c
  end.

Definition find_short (opts_ : list config_option) (c : Ascii.ascii)
  : option (nat * config_option) := find_short_from 0 opts_ c.

(** [config_option_set::size()]. *)
Definition size (opts_ : list config_option) : nat := length opts_.

Section config_option_impl.

(** [config_value], the error codes of [detail::parser::ec] with
    [type_mismatch] among them, [config_value::parse] and
    [holds_alternative<T>] are declared in headers outside the sources at
    hand; [config_option_impl<T>] is modelled over any of them. *)
Context {config_value ec : Type}.
Context (type_mismatch : ec).
Context (config_value_parse : string → ec + config_value).
Context (holds_alternative : config_value → bool).

(** [config_option_impl<T>::parse(arg)]; [expected<config_value>] is an
    error on the left or a value on the right. *)
Definition parse (arg : string) : ec + config_value :=
  let result := config_value_parse arg in
  match result with
  | inr x => if negb (holds_alternative x) then inl type_mismatch else result
  | inl _ => result
  end.

(** [config_option_impl<T>::check(x)]; [None] is [none]. *)
Definition check (x : config_value) : option ec :=
  if holds_alternative x then None else Some type_mismatch.

End config_option_impl.

End ConfigOption.

(** ** The store behind a well-formed queue *)

Import Queue.

Section queue_store.

Context {T : Type}.

Implicit Types (h : gmap node_pointer (node T)) (q : thread_safe_queue T).
Implicit Types (cells : list (node_pointer * T)) (l tmp : node_pointer).
Implicit Types (pv : option node_pointer) (val : option T) (v : T).

(** A chain only depends on the nodes it runs through. *)
Lemma chain_frame h h' pv l val cells :
  chain h pv l val cells →
  (∀ x, x ∈ l :: cells.*1 → h' !! x = h !! x) →
  chain h' pv l val cells.
Proof.
  revert pv l val. induction cells as [|[l' v] cells IH]; simpl; intros pv l val.
  - intros Hl Hx. rewrite Hx; [done | apply list_elem_of_here].
  - intros [Hl Hc] Hx. split.
    + rewrite Hx; [done | apply list_elem_of_here].
    + apply IH; [done |]. intros x Hin. by apply Hx, list_elem_of_further.
Qed.

Lemma chain_live h pv l val cells x :
  chain h pv l val cells → x ∈ l :: cells.*1 → is_Some (h !! x).
Proof.
  revert pv l val. induction cells as [|[l' v] cells IH]; simpl; intros pv l val.
  - intros Hl Hin. apply list_elem_of_singleton in Hin as ->. eauto.
  - intros [Hl Hc] Hin. apply elem_of_cons in Hin as [->|Hin]; eauto.
Qed.

Lemma chain_head h pv l val cells :
  chain h pv l val cells →
  h !! l = Some (Node val (head cells.*1) pv).
Proof. destruct cells as [|[l' v] cells]; simpl; [done | by intros [? _]]. Qed.

Lemma default_last_cons (l l' : node_pointer) (ls : list node_pointer) :
  default l (last (l' :: ls)) = default l' (last ls).
Proof. rewrite last_cons. by destruct (last ls). Qed.

(** The last node of a chain: its [prev] is the node before it. *)
Lemma chain_last h pv l val cells tl v :
  chain h pv l val (cells ++ [(tl, v)]) →
  h !! tl = Some (Node (Some v) None (Some (default l (last cells.*1)))).
Proof.
  revert pv l val. induction cells as [|[l' v'] cells IH]; simpl; intros pv l val.
  - by intros [_ ?].
  - intros [_ Hc]. apply IH in Hc. by rewrite Hc, default_last_cons.
Qed.

Lemma last_in (l : node_pointer) (ls : list node_pointer) :
  default l (last ls) ∈ l :: ls.
Proof.
  destruct (last ls) as [x|] eqn:E; simpl; [|apply list_elem_of_here].
  by apply list_elem_of_further, last_Some_elem_of.
Qed.

(** Linking a new last node. *)
Lemma chain_snoc h h' pv l val cells tmp v :
  chain h pv l val cells →
  NoDup (l :: cells.*1) →
  tmp ∉ l :: cells.*1 →
  let tl := default l (last cells.*1) in
  (∀ x, x ∈ l :: cells.*1 → x ≠ tl → h' !! x = h !! x) →
  h' !! tl = set_next (Some tmp) <$> h !! tl →
  h' !! tmp = Some (Node (Some v) None (Some tl)) →
  chain h' pv l val (cells ++ [(tmp, v)]).
Proof.
  revert pv l val. induction cells as [|[l' v'] cells IH]; simpl; intros pv l val.
  - intros Hl _ _ _ Htl Htmp. rewrite Htl, Hl. done.
  - intros [Hl Hc] [Hnin Hnd]%NoDup_cons Htmp.
    rewrite default_last_cons.
    intros Hx Htl Hnew. split.
    + rewrite Hx, Hl; [done | apply list_elem_of_here |].
      intros ->. apply Hnin, last_in.
    + apply IH; [done | done | | | done | done].
      * intros Hin. by apply Htmp, list_elem_of_further.
      * intros x Hin Hne. apply Hx; [by apply list_elem_of_further | done].
Qed.

(** Unlinking the last node. *)
Lemma chain_unsnoc h h' pv l val cells tl v :
  chain h pv l val (cells ++ [(tl, v)]) →
  NoDup (l :: cells.*1) →
  let pr := default l (last cells.*1) in
  (∀ x, x ∈ l :: cells.*1 → x ≠ pr → h' !! x = h !! x) →
  h' !! pr = set_next None <$> h !! pr →
  chain h' pv l val cells.
Proof.
  revert pv l val. induction cells as [|[l' v'] cells IH]; simpl; intros pv l val.
  - intros [Hl _] _ _ Hpr. rewrite Hpr, Hl. done.
  - intros [Hl Hc] [Hnin Hnd]%NoDup_cons.
    rewrite default_last_cons.
    intros Hx Hpr. split.
    + rewrite Hx, Hl; [done | apply list_elem_of_here |].
      intros ->. apply Hnin, last_in.
    + apply IH; [done | done | | done].
      intros x Hin Hne. apply Hx; [by apply list_elem_of_further | done].
Qed.

(** Rewriting the payload and the [prev] of the first node of a chain
    leaves the rest of it alone. *)
Lemma chain_relink h h' pv pv' l val val' cells :
  chain h pv l val cells →
  h' !! l = Some (Node val' (head cells.*1) pv') →
  (∀ x, x ∈ cells.*1 → h' !! x = h !! x) →
  chain h' pv' l val' cells.
Proof.
  intros Hc Hl Hx. destruct cells as [|[l' v] cells]; simpl in *; [done|].
  destruct Hc as [_ Hc]. split; [done|]. by apply chain_frame with h.
Qed.

(** Walking a chain reads its payloads. *)
Lemma chain_walk h pv l val cells fuel :
  chain h pv l val cells →
  length cells < fuel →
  walk h fuel (Some l) = option_list val ++ cells.*2.
Proof.
  revert pv l val fuel.
  induction cells as [|[l' v] cells IH]; simpl; intros pv l val fuel Hc Hlen.
  - destruct fuel as [|fuel]; [lia|]. simpl. rewrite Hc. simpl.
    destruct val; simpl; by destruct fuel.
  - destruct Hc as [Hl Hc]. destruct fuel as [|fuel]; [lia|]. simpl.
    rewrite Hl. simpl. rewrite (IH _ _ _ fuel Hc) by lia.
    by destruct val.
Qed.

(** Distinct live nodes are no more than the store holds. *)
Lemma live_bound h (ls : list node_pointer) :
  NoDup ls → (∀ x, x ∈ ls → is_Some (h !! x)) → length ls ≤ size h.
Proof.
  intros Hnd Hlive.
  rewrite <- (size_list_to_set (C:=gset node_pointer) ls) by done.
  rewrite <- size_dom. apply subseteq_size.
  intros x Hx. apply elem_of_list_to_set in Hx. apply elem_of_dom. auto.
Qed.

Lemma new_node_fresh h : h !! new_node h = None.
Proof. apply not_elem_of_dom. unfold new_node. apply is_fresh. Qed.

End queue_store.

(** ** Every operation against the sequence of items *)

Section queue_ops.

Context {T : Type}.

Implicit Types (h : gmap node_pointer (node T)) (q : thread_safe_queue T).
Implicit Types (cells : list (node_pointer * T)) (l tmp : node_pointer).
Implicit Types (v : T) (b : bool).

Lemma repr_live q cells x :
  repr q cells → x ∈ head_ q :: cells.*1 → is_Some (nodes q !! x).
Proof. intros (Hc & _ & _). by eapply chain_live. Qed.

Lemma repr_new_node q cells :
  repr q cells → new_node (nodes q) ∉ head_ q :: cells.*1.
Proof.
  intros Hr Hin. apply (repr_live _ _ _ Hr) in Hin as [n Hn].
  by rewrite new_node_fresh in Hn.
Qed.

Lemma repr_tail_in q cells : repr q cells → tail_ q ∈ head_ q :: cells.*1.
Proof. intros (_ & _ & ->). apply last_in. Qed.

Lemma repr_items q cells : repr q cells → items q = cells.*2.
Proof.
  intros Hr. pose proof Hr as (Hc & Hnd & _).
  unfold items, load_next. rewrite (chain_head _ _ _ _ _ Hc). simpl.
  destruct cells as [|[l' v] cells]; simpl.
  - by destruct (size (nodes q)).
  - destruct Hc as [_ Hc].
    rewrite (chain_walk _ _ _ _ _ _ Hc); [done|].
    pose proof (live_bound (nodes q) _ Hnd (λ x, repr_live q _ x Hr)) as Hb.
    simpl in Hb. rewrite length_fmap in Hb. lia.
Qed.

Lemma repr_make : repr (make (T:=T)) [].
Proof.
  unfold repr, make. simpl. split_and!.
  - apply lookup_singleton_eq.
  - apply NoDup_singleton.
  - done.
Qed.

Lemma repr_empty q cells : repr q cells → (head_ q = tail_ q ↔ cells = []).
Proof.
  intros (_ & Hnd & Htl). split.
  - intros Heq. destruct cells as [|c cells]; [done|]. exfalso.
    apply NoDup_cons in Hnd as [Hnin _]. apply Hnin.
    assert (tail_ q ∈ (c :: cells).*1) as Hin; [|by rewrite Heq].
    rewrite Htl. simpl. rewrite default_last_cons. apply last_in.
  - intros ->. by rewrite Htl.
Qed.

Lemma repr_append b v q cells :
  repr q cells →
  repr (append_ b v q).1 (cells ++ [(new_node (nodes q), v)]).
Proof.
  intros Hr. pose proof Hr as (Hc & Hnd & Htl).
  pose proof (repr_new_node _ _ Hr) as Hnew.
  pose proof (repr_tail_in _ _ Hr) as Htin.
  set (tmp := new_node (nodes q)) in *.
  assert (tail_ q ≠ tmp) as Hne by (intros E; by rewrite E in Htin).
  unfold append_. fold tmp. simpl. split_and!; simpl.
  - eapply chain_snoc; [done | done | done | | |].
    + intros x Hin Hx. rewrite <- Htl in Hx.
      assert (x ≠ tmp) by (intros ->; done).
      by rewrite !lookup_alter_ne, lookup_insert_ne.
    + rewrite <- Htl.
      by rewrite lookup_alter_ne, lookup_alter_eq, lookup_insert_ne.
    + rewrite <- Htl.
      by rewrite lookup_alter_eq, lookup_alter_ne, lookup_insert_eq.
  - rewrite fmap_app. simpl. rewrite app_comm_cons.
    apply NoDup_app. split_and!; [done | | apply NoDup_singleton].
    intros x Hin ->%list_elem_of_singleton. done.
  - rewrite fmap_app. simpl. by rewrite last_snoc.
Qed.

Lemma repr_prepend b v q cells :
  repr q cells →
  repr (prepend_ b v q).1 ((new_node (nodes q), v) :: cells).
Proof.
  intros Hr. pose proof Hr as (Hc & Hnd & Htl).
  pose proof (repr_new_node _ _ Hr) as Hnew.
  set (tmp := new_node (nodes q)) in *.
  assert (head_ q ≠ tmp) as Hne.
  { intros E. apply Hnew. rewrite <- E. apply list_elem_of_here. }
  unfold prepend_, load_next. fold tmp.
  rewrite lookup_insert_ne by done.
  rewrite (chain_head _ _ _ _ _ Hc). simpl.
  destruct cells as [|[nxt v'] cells]; simpl in *.
  - split_and!; simpl.
    + split.
      * by rewrite lookup_alter_eq, lookup_alter_ne, lookup_insert_ne, Hc.
      * by rewrite lookup_alter_ne, lookup_alter_eq, lookup_insert_eq.
    + apply NoDup_cons. split; [|apply NoDup_singleton].
      by intros E%list_elem_of_singleton.
    + done.
  - destruct Hc as [Hhd Hc].
    assert (nxt ≠ tmp) as Hne'.
    { intros E. apply Hnew. rewrite <- E. apply list_elem_of_further, list_elem_of_here. }
    apply NoDup_cons in Hnd as [Hhnin Hnd].
    assert (head_ q ≠ nxt) as Hhn.
    { intros E. apply Hhnin. rewrite E. apply list_elem_of_here. }
    split_and!; simpl.
    + split; [|split].
      * by rewrite lookup_alter_ne, lookup_alter_ne, lookup_alter_eq,
          lookup_alter_ne, lookup_insert_ne, Hhd.
      * by rewrite lookup_alter_ne, lookup_alter_eq, lookup_alter_ne,
          lookup_alter_eq, lookup_insert_eq.
      * eapply chain_relink; [exact Hc | |].
        -- rewrite lookup_alter_eq, !lookup_alter_ne, lookup_insert_ne by done.
           by rewrite (chain_head _ _ _ _ _ Hc).
        -- intros x Hin.
           assert (x ≠ nxt).
           { intros ->. by apply NoDup_cons in Hnd as [? _]. }
           assert (x ≠ tmp).
           { intros ->. apply Hnew. by do 2 apply list_elem_of_further. }
           assert (x ≠ head_ q).
           { intros ->. apply Hhnin. by apply list_elem_of_further. }
           by rewrite !lookup_alter_ne, lookup_insert_ne.
    + apply NoDup_cons. split.
      * intros [E|Hin]%elem_of_cons; [done|]. by apply Hhnin.
      * apply NoDup_cons. split; [|done].
        intros Hin. apply Hnew. by apply list_elem_of_further.
    + by rewrite Htl, !default_last_cons.
Qed.

Lemma repr_take_head_nil q :
  repr q [] → try_take_head q = (None, q).
Proof.
  intros (Hc & _ & _). simpl in Hc.
  unfold try_take_head, try_take_head_impl, load_next. by rewrite Hc.
Qed.

Lemma repr_take_head_cons q l v cells :
  repr q ((l, v) :: cells) →
  (try_take_head q).1 = Some v ∧ repr (try_take_head q).2 cells.
Proof.
  intros ([Hhd Hc] & [Hhnin Hnd]%NoDup_cons & Htl). simpl in *.
  pose proof (chain_head _ _ _ _ _ Hc) as Hl.
  assert (head_ q ≠ l) as Hne.
  { intros E. apply Hhnin. rewrite E. apply list_elem_of_here. }
  unfold try_take_head, try_take_head_impl, load_next, load_value.
  rewrite Hhd. simpl. rewrite Hl. simpl. split; [done|].
  split_and!; simpl.
  - eapply chain_relink; [exact Hc | |].
    + rewrite lookup_delete_ne, !lookup_alter_eq by done. by rewrite Hl.
    + intros x Hin.
      assert (x ≠ l).
      { intros ->. by apply NoDup_cons in Hnd as [? _]. }
      assert (x ≠ head_ q).
      { intros ->. apply Hhnin. by apply list_elem_of_further. }
      by rewrite lookup_delete_ne, !lookup_alter_ne.
  - done.
  - by rewrite Htl, default_last_cons.
Qed.

Lemma repr_take_tail_nil q :
  repr q [] → try_take_tail q = (None, q).
Proof.
  intros (_ & _ & Htl). simpl in Htl.
  unfold try_take_tail. by rewrite bool_decide_eq_true_2.
Qed.

Lemma repr_take_tail_snoc q tl v cells :
  repr q (cells ++ [(tl, v)]) →
  (try_take_tail q).1 = Some v ∧ repr (try_take_tail q).2 cells.
Proof.
  intros (Hc & Hnd & Htl).
  rewrite fmap_app in Hnd, Htl. simpl in Hnd, Htl.
  rewrite last_snoc in Htl. simpl in Htl.
  rewrite app_comm_cons in Hnd.
  apply NoDup_app in Hnd as (Hnd & Hdisj & _).
  assert (tl ∉ head_ q :: cells.*1) as Htlnin.
  { intros Hin. apply (Hdisj _ Hin), list_elem_of_here. }
  pose proof (chain_last _ _ _ _ _ _ _ Hc) as Hlast.
  pose proof (last_in (head_ q) cells.*1) as Hprin.
  set (pr := default (head_ q) (last cells.*1)) in *.
  assert (pr ≠ tl) as Hne by (intros E; by rewrite E in Hprin).
  unfold try_take_tail, load_value, load_prev.
  rewrite Htl, bool_decide_eq_false_2.
  2:{ intros E. apply Htlnin. rewrite E. apply list_elem_of_here. }
  rewrite Hlast. simpl. split; [done|]. split_and!; simpl.
  - eapply chain_unsnoc; [done | done | |].
    + intros x Hin Hx. fold pr in Hx.
      assert (x ≠ tl) by (intros ->; done).
      by rewrite lookup_delete_ne, lookup_alter_ne.
    + fold pr. by rewrite lookup_delete_ne, lookup_alter_eq.
  - done.
  - done.
Qed.

End queue_ops.

(** ** The queue as a sequence *)

Section queue_items.

Context {T : Type}.

Implicit Types (q : thread_safe_queue T) (v x y : T) (b : bool).
Implicit Types (ops : list (op T)) (vs pre : list T).

Lemma wf_make : wf (make (T:=T)).
Proof. exists []. apply repr_make. Qed.

Lemma items_make : items (make (T:=T)) = [].
Proof. by rewrite (repr_items _ _ repr_make). Qed.

Lemma wf_append b v q : wf q → wf (append_ b v q).1.
Proof. intros [cells Hr]. eexists. by apply repr_append. Qed.

Lemma items_append b v q : wf q → items (append_ b v q).1 = items q ++ [v].
Proof.
  intros [cells Hr].
  rewrite (repr_items _ _ Hr), (repr_items _ _ (repr_append b v _ _ Hr)).
  by rewrite fmap_app.
Qed.

Lemma wf_prepend b v q : wf q → wf (prepend_ b v q).1.
Proof. intros [cells Hr]. eexists. by apply repr_prepend. Qed.

Lemma items_prepend b v q : wf q → items (prepend_ b v q).1 = v :: items q.
Proof.
  intros [cells Hr].
  by rewrite (repr_items _ _ Hr), (repr_items _ _ (repr_prepend b v _ _ Hr)).
Qed.

Lemma empty_items q : wf q → (empty q = true ↔ items q = []).
Proof.
  intros [cells Hr]. rewrite (repr_items _ _ Hr). unfold empty.
  rewrite bool_decide_eq_true, (repr_empty _ _ Hr).
  destruct cells; naive_solver.
Qed.

Lemma try_take_head_nil q :
  wf q → items q = [] → try_take_head q = (None, q).
Proof.
  intros [cells Hr]. rewrite (repr_items _ _ Hr).
  intros ->%fmap_nil_inv. by apply repr_take_head_nil.
Qed.

Lemma try_take_head_cons q v vs :
  wf q → items q = v :: vs →
  (try_take_head q).1 = Some v
  ∧ wf (try_take_head q).2
  ∧ items (try_take_head q).2 = vs.
Proof.
  intros [cells Hr]. rewrite (repr_items _ _ Hr).
  destruct cells as [|[l v'] cells]; [done|]. simpl. intros [= -> <-].
  destruct (repr_take_head_cons _ _ _ _ Hr) as [Hres Hr'].
  split_and!; [done | by eexists | by apply repr_items].
Qed.

Lemma try_take_tail_nil q :
  wf q → items q = [] → try_take_tail q = (None, q).
Proof.
  intros [cells Hr]. rewrite (repr_items _ _ Hr).
  intros ->%fmap_nil_inv. by apply repr_take_tail_nil.
Qed.

Lemma try_take_tail_snoc q v vs :
  wf q → items q = vs ++ [v] →
  (try_take_tail q).1 = Some v
  ∧ wf (try_take_tail q).2
  ∧ items (try_take_tail q).2 = vs.
Proof.
  intros [cells Hr]. rewrite (repr_items _ _ Hr).
  destruct cells as [|[tl v'] cells _] using rev_ind.
  { intros E. by destruct vs. }
  rewrite fmap_app. simpl. intros [<- [= ->]]%app_inj_tail.
  destruct (repr_take_tail_snoc _ _ _ _ Hr) as [Hres Hr'].
  split_and!; [done | by eexists | by apply repr_items].
Qed.

Lemma wf_try_take_head q : wf q → wf (try_take_head q).2.
Proof.
  intros Hwf. destruct (items q) as [|v vs] eqn:E.
  - by rewrite try_take_head_nil.
  - by apply (try_take_head_cons _ _ _ Hwf E).
Qed.

Lemma wf_try_take_tail q : wf q → wf (try_take_tail q).2.
Proof.
  intros Hwf. destruct (items q) as [|v vs _] eqn:E using rev_ind.
  - by rewrite try_take_tail_nil.
  - by apply (try_take_tail_snoc _ _ _ Hwf E).
Qed.

Lemma wf_step q o : wf q → wf (step q o).1.
Proof.
  intros Hwf. destruct o; simpl.
  - by apply (wf_append true).
  - by apply (wf_prepend true).
  - by apply wf_try_take_head.
  - by apply wf_try_take_tail.
Qed.

Lemma run_cons q o ops :
  run q (o :: ops) =
    ((run (step q o).1 ops).1, option_list (step q o).2 ++ (run (step q o).1 ops).2).
Proof. simpl. destruct (step q o) as [q1 r]. simpl. by destruct (run q1 ops). Qed.

Lemma run_app q ops1 ops2 :
  run q (ops1 ++ ops2) =
    ((run (run q ops1).1 ops2).1, (run q ops1).2 ++ (run (run q ops1).1 ops2).2).
Proof.
  revert q. induction ops1 as [|o ops1 IH]; intros q.
  - simpl. by destruct (run q ops2).
  - rewrite <- app_comm_cons, !run_cons, IH. simpl. by rewrite app_assoc.
Qed.

Lemma wf_run q ops : wf q → wf (run q ops).1.
Proof.
  revert q. induction ops as [|o ops IH]; intros q Hwf; [done|].
  rewrite run_cons. simpl. by apply IH, wf_step.
Qed.

(** What a history returned and what it left behind is what was there and
    what it inserted. *)
Lemma run_conserves q ops :
  wf q →
  (run q ops).2 ++ items (run q ops).1 ≡ₚ items q ++ inserted ops.
Proof.
  revert q. induction ops as [|o ops IH]; intros q Hwf.
  { simpl. by rewrite app_nil_r. }
  rewrite run_cons. simpl. rewrite <- app_assoc, (IH _ (wf_step q o Hwf)).
  unfold inserted. destruct o as [v|v| |]; cbn; unfold append, prepend.
  - rewrite items_append by done. by rewrite <- app_assoc.
  - rewrite items_prepend by done. simpl. by rewrite Permutation_middle.
  - destruct (items q) as [|v vs] eqn:E.
    + rewrite try_take_head_nil by done. simpl. by rewrite E.
    + destruct (try_take_head_cons _ _ _ Hwf E) as (-> & _ & ->). done.
  - destruct (items q) as [|v vs _] eqn:E using rev_ind.
    + rewrite try_take_tail_nil by done. simpl. by rewrite E.
    + destruct (try_take_tail_snoc _ _ _ Hwf E) as (-> & _ & ->). simpl.
      by rewrite <- Permutation_cons_append.
Qed.

End queue_items.

(** ** Order of service *)

Section queue_order.

Context {T : Type}.

Implicit Types (q : thread_safe_queue T) (v x y : T).
Implicit Types (ops : list (op T)) (vs pre : list T).

Lemma before_prefix x y pre vs :
  before x y (pre ++ vs) → NoDup (pre ++ vs) → y ∈ pre → before x y pre.
Proof.
  unfold before. intros Hsub [_ [Hdisj _]]%NoDup_app Hy.
  apply sublist_app_r in Hsub as (l1 & l2 & Heq & H1 & H2).
  assert (y ∈ l2 → False) as Hl2.
  { intros Hin. apply (Hdisj y Hy). by eapply elem_of_sublist. }
  destruct l1 as [|a [|b l1]]; simpl in Heq.
  - subst l2. destruct Hl2. apply list_elem_of_further, list_elem_of_here.
  - injection Heq as -> <-. destruct Hl2. apply list_elem_of_here.
  - injection Heq as -> -> E. by destruct l1.
Qed.

(** Without [try_take_tail], the items returned so far followed by the
    items still queued only ever grow: [append] adds at the end, [prepend]
    between the two parts, and [try_take_head] moves the border. *)
Lemma run_keeps_order q ops pre x y :
  wf q →
  existsb is_take_tail ops = false →
  before x y (pre ++ items q) →
  before x y (pre ++ (run q ops).2 ++ items (run q ops).1).
Proof.
  unfold before. intros Hwf. revert q pre Hwf.
  induction ops as [|o ops IH]; intros q pre Hwf Hno Hb; [done|].
  simpl in Hno. apply orb_false_iff in Hno as [Ho Hno].
  rewrite run_cons. cbn [fst snd].
  pose proof (wf_step q o Hwf) as Hwf'.
  destruct o as [v|v| |]; cbn in *; unfold append, prepend in *; try done.
  - apply IH; [done | done |]. rewrite items_append by done.
    rewrite app_assoc. by apply sublist_inserts_r.
  - apply IH; [done | done |]. rewrite items_prepend by done.
    etrans; [exact Hb|]. apply sublist_app; [done|]. by apply sublist_cons.
  - destruct (items q) as [|v vs] eqn:E.
    + rewrite try_take_head_nil in * by done. cbn. apply IH; [done..|].
      by rewrite E.
    + destruct (try_take_head_cons _ _ _ Hwf E) as (Hr & _ & Hi).
      rewrite Hr. cbn.
      specialize (IH (try_take_head q).2 (pre ++ [v]) Hwf' Hno).
      rewrite Hi, <- !app_assoc in IH. by apply IH.
Qed.

End queue_order.

(** ** The mailbox queue: what the operations guarantee *)

Section queue_claims.

Context {T : Type}.

Implicit Types (q : thread_safe_queue T) (v x y a p : T).
Implicit Types (ops : list (op T)) (vs : list T).

(** C3.  In a history of [append], [prepend] and [try_take_head] on a new
    queue whose inserted items are pairwise distinct: every
    [try_take_head] returns the first of the items then queued; of two
    appended items the one appended first is returned first (the later one
    is never returned unless the earlier one was); and an item prepended
    while an earlier appended item is still queued is returned before that
    item. *)
Theorem take_head_order ops :
  existsb is_take_tail ops = false →
  NoDup (inserted ops) →
  let taken := (run make ops).2 in
  (∀ ops1 ops2,
      ops = ops1 ++ TakeHead :: ops2 →
      (try_take_head (run make ops1).1).1 = head (items (run make ops1).1))
  ∧ (∀ ops1 ops2 ops3 x y,
      ops = ops1 ++ Append x :: ops2 ++ Append y :: ops3 →
      y ∈ taken → before x y taken)
  ∧ (∀ ops1 ops2 ops3 a p,
      ops = ops1 ++ Append a :: ops2 ++ Prepend p :: ops3 →
      a ∉ (run make (ops1 ++ Append a :: ops2)).2 →
      a ∈ taken → before p a taken).
Proof.
  intros Hno Hnd taken.
  assert (NoDup (taken ++ items (run make ops).1)) as Hnd'.
  { unfold taken. rewrite (run_conserves make ops wf_make), items_make. done. }
  split_and!.
  - intros ops1 ops2 _.
    pose proof (wf_run make ops1 wf_make) as Hwf.
    destruct (items (run make ops1).1) as [|v vs] eqn:E.
    + by rewrite try_take_head_nil.
    + by destruct (try_take_head_cons _ _ _ Hwf E) as (-> & _).
  - intros ops1 ops2 ops3 x y Hops Hy.
    apply before_prefix with (items (run make ops).1); [|done|done].
    assert (ops = ((ops1 ++ [Append x]) ++ ops2) ++ Append y :: ops3) as Hops'.
    { rewrite Hops, <- !app_assoc. done. }
    unfold taken. rewrite Hops' in Hno |- *. clear Hops Hops'.
    rewrite existsb_app in Hno. apply orb_false_iff in Hno as [_ Hno].
    cbn in Hno.
    set (opsx := (ops1 ++ [Append x]) ++ ops2) in *.
    pose proof (wf_run make opsx wf_make) as Hwf.
    rewrite run_app, run_cons. cbn [fst snd option_list app step].
    rewrite <- app_assoc. apply run_keeps_order; [by apply (wf_append true) | done |].
    unfold append. rewrite items_append, app_assoc by done.
    apply (sublist_app [x] _ [y]); [|done]. apply singleton_sublist_l.
    rewrite (run_conserves make opsx wf_make), items_make. simpl.
    unfold opsx, inserted. rewrite !omap_app. simpl.
    apply elem_of_app. left. apply elem_of_app. right. apply list_elem_of_here.
  - intros ops1 ops2 ops3 a p Hops Hnot Ha.
    apply before_prefix with (items (run make ops).1); [|done|done].
    assert (ops = (ops1 ++ Append a :: ops2) ++ Prepend p :: ops3) as Hops'.
    { rewrite Hops, <- !app_assoc. done. }
    unfold taken. rewrite Hops' in Hno |- *. clear Hops Hops'.
    rewrite existsb_app in Hno. apply orb_false_iff in Hno as [_ Hno].
    cbn in Hno.
    set (opsa := ops1 ++ Append a :: ops2) in *.
    pose proof (wf_run make opsa wf_make) as Hwf.
    rewrite run_app, run_cons. cbn [fst snd option_list app step].
    rewrite <- app_assoc. apply run_keeps_order; [by apply (wf_prepend true) | done |].
    unfold prepend. rewrite items_prepend by done.
    apply sublist_inserts_l. apply sublist_skip. apply singleton_sublist_l.
    assert (a ∈ (run make opsa).2 ++ items (run make opsa).1) as Hin.
    { rewrite (run_conserves make opsa wf_make), items_make. simpl.
      unfold opsa, inserted. rewrite omap_app. simpl.
      apply elem_of_app. right. apply list_elem_of_here. }
    apply elem_of_app in Hin as [Hin|Hin]; [by destruct Hnot | done].
Qed.

(** C4.  In every history of [append], [prepend], [try_take_head] and
    [try_take_tail] on a new queue, the items the takes returned together
    with the items still queued are, as a multiset, the items inserted:
    none is lost and none is duplicated. *)
Theorem no_loss_no_duplication ops :
  (run make ops).2 ++ items (run make ops).1 ≡ₚ inserted ops.
Proof. by rewrite (run_conserves make ops wf_make), items_make. Qed.


(** C7.  [append] and [prepend] call [cv_.notify_one()], and so wake at
    most one consumer, exactly when the queue held no item before the
    call. *)
Theorem notify_iff_was_empty q v :
  wf q →
  ((append v q).2 = true ↔ items q = [])
  ∧ ((prepend v q).2 = true ↔ items q = []).
Proof.
  intros [cells Hr]. rewrite (repr_items _ _ Hr).
  pose proof (repr_empty _ _ Hr) as Hempty.
  pose proof Hr as (Hc & _ & _).
  assert (cells.*2 = [] ↔ cells = []) as ->.
  { destruct cells; by split. }
  split.
  - unfold append, append_. cbn.
    rewrite bool_decide_eq_true, <- Hempty. by split.
  - unfold prepend, prepend_, load_next.
    rewrite lookup_insert_ne.
    2:{ intros E. apply (repr_new_node _ _ Hr). rewrite E. apply list_elem_of_here. }
    rewrite (chain_head _ _ _ _ _ Hc). cbn.
    destruct cells as [|[l' v'] cells]; cbn; by split.
Qed.

(** C9.  [internal_append] and [internal_prepend] leave the queue in the
    very state [append] and [prepend] leave it in, and never call
    [cv_.notify_one()]. *)
Theorem internal_variants_same_state q v :
  (internal_append v q).1 = (append v q).1
  ∧ (internal_append v q).2 = false
  ∧ (internal_prepend v q).1 = (prepend v q).1
  ∧ (internal_prepend v q).2 = false.
Proof.
  unfold internal_append, append, append_.
  unfold internal_prepend, prepend, prepend_.
  split_and!; try done; by destruct (load_next _ _).
Qed.

(** C10.  On a queue without items [try_take_head()] and [try_take_tail()]
    return null and the state they leave is the state they found: the
    queue is still empty, and any further history runs as it would have
    without the failed take. *)
Theorem take_on_empty_is_noop q :
  wf q →
  items q = [] →
  try_take_head q = (None, q)
  ∧ try_take_tail q = (None, q)
  ∧ empty (try_take_head q).2 = true
  ∧ empty (try_take_tail q).2 = true
  ∧ (∀ ops, run q (TakeHead :: ops) = run q ops)
  ∧ (∀ ops, run q (TakeTail :: ops) = run q ops).
Proof.
  intros Hwf Hi.
  pose proof (try_take_head_nil q Hwf Hi) as Hh.
  pose proof (try_take_tail_nil q Hwf Hi) as Ht.
  rewrite Hh, Ht. cbn [snd].
  assert (empty q = true) by by apply empty_items.
  split_and!; try done.
  - intros ops. rewrite run_cons. cbn [step fst snd].
    rewrite Hh. cbn. by destruct (run q ops).
  - intros ops. rewrite run_cons. cbn [step fst snd].
    rewrite Ht. cbn. by destruct (run q ops).
Qed.

(** C1, what the code does.  On a queue without items
    [try_take_head(rel_time)] returns null with the clock where it was,
    whatever the timeout: the predicate given to [wait_for] is
    [ptr == nullptr], which already holds, so the call never waits. *)
Theorem try_take_head_for_empty_returns_at_once q wakeups rel_time now :
  wf q →
  items q = [] →
  try_take_head_for wakeups rel_time q now = (None, q, now).
Proof.
  intros [cells Hr]. rewrite (repr_items _ _ Hr).
  intros ->%fmap_nil_inv. destruct Hr as (Hc & _ & _). cbn in Hc.
  unfold try_take_head_for, try_take_head_impl, load_next, wait_for.
  rewrite Hc. cbn. by destruct wakeups.
Qed.

(** The other side of the same predicate: with an item queued and nobody
    to change the queue, a call with a timeout that is not negative and a
    deadline the clock can represent sleeps until the timeout has passed
    and only then returns the item. *)
Lemma try_take_head_for_nonempty_waits q v vs rel_time now :
  wf q →
  items q = v :: vs →
  (0 ≤ rel_time)%Z →
  (- 2 ^ 63 ≤ now)%Z →
  (now + rel_time < 2 ^ 63)%Z →
  (try_take_head_for [] rel_time q now).1.1 = Some v
  ∧ (try_take_head_for [] rel_time q now).2 = (now + rel_time)%Z.
Proof.
  intros [cells Hr]. rewrite (repr_items _ _ Hr).
  destruct cells as [|[l v'] cells]; [done|]. cbn. intros [= -> <-].
  intros Hrel Hnow Hmax.
  destruct Hr as ([Hhd Hc] & _ & _).
  unfold try_take_head_for, try_take_head_impl, load_next, load_value, wait_for.
  rewrite Hhd. cbn. rewrite (chain_head _ _ _ _ _ Hc). cbn.
  split; [done|]. unfold int64_wrap.
  rewrite Z.mod_small by lia. lia.
Qed.

End queue_claims.

(** ** Identity of proxies and of published endpoints *)

Import Middleman.

Section registry.

Implicit Types (r : ProxyRegistry) (a : ActorAddress) (p : ProxyRef).
Implicit Types (net : gmap nat System) (s : System).

Lemma registry_ok_empty : registry_ok empty_registry.
Proof.
  intros a p. cbn. rewrite lookup_empty. split; [done|].
  intros (px & Hpx & _). by rewrite lookup_empty in Hpx.
Qed.

(** The invariant does not look at the connections. *)
Lemma registry_ok_connections r (c : gset NodeId) :
  registry_ok r →
  registry_ok {| proxies := proxies r; entries := entries r; connections := c |}.
Proof. done. Qed.

Lemma registry_ok_unique r p1 p2 x1 x2 :
  registry_ok r →
  proxies r !! p1 = Some x1 → proxies r !! p2 = Some x2 →
  address x1 = address x2 → p1 = p2.
Proof.
  intros Hok H1 H2 Ha.
  assert (entries r !! address x1 = Some p1) as E1 by (apply Hok; eauto).
  assert (entries r !! address x1 = Some p2) as E2 by (apply Hok; eauto).
  congruence.
Qed.

Lemma get_or_create_existing r a p :
  entries r !! a = Some p → get_or_create a r = Ok (p, r).
Proof. intros E. unfold get_or_create. by rewrite E. Qed.

Lemma get_or_create_new r a :
  registry_ok r →
  entries r !! a = None →
  a.1 ∈ connections r →
  let p := fresh (dom (proxies r)) in
  let r' := {| proxies := <[ p := {| address := a; state := alive |} ]> (proxies r);
               entries := <[ a := p ]> (entries r);
               connections := connections r |} in
  get_or_create a r = Ok (p, r') ∧ proxies r !! p = None ∧ registry_ok r'.
Proof.
  intros Hok E Hc p r'.
  assert (proxies r !! p = None) as Hp by apply not_elem_of_dom, is_fresh.
  split_and!; [| done |].
  - unfold get_or_create. rewrite E. by rewrite decide_True.
  - intros a' p'. unfold r'. cbn. split.
    + intros [[<- <-]|[Hne E']]%lookup_insert_Some.
      * eexists. by rewrite lookup_insert_eq.
      * apply Hok in E' as (px & Hpx & Ha). exists px. split; [|done].
        rewrite lookup_insert_ne; [done|]. intros <-. congruence.
    + intros (px & [[<- <-]|[Hne Hpx]]%lookup_insert_Some & Ha).
      * cbn in Ha. subst a'. by rewrite lookup_insert_eq.
      * assert (entries r !! a' = Some p') as E' by (apply Hok; eauto).
        rewrite lookup_insert_ne; [done|]. intros <-. congruence.
Qed.

(** A successful [get_or_create] leaves the address bound to what it
    returned and keeps every earlier entry. *)
Lemma get_or_create_ok r a p r' :
  registry_ok r →
  get_or_create a r = Ok (p, r') →
  registry_ok r' ∧ entries r' !! a = Some p ∧ entries r ⊆ entries r'.
Proof.
  intros Hok. destruct (entries r !! a) as [p0|] eqn:E.
  - rewrite (get_or_create_existing _ _ _ E). by intros [= <- <-].
  - unfold get_or_create. rewrite E. case_decide as Hc; [|done].
    destruct (get_or_create_new r a Hok E Hc) as (_ & _ & Hok').
    intros [= <- <-]. cbn. split_and!; [done | by rewrite lookup_insert_eq |].
    by apply insert_subseteq.
Qed.

Lemma connect_ok net expects host port r p r' :
  registry_ok r →
  connect net expects host port r = Ok (p, r') →
  registry_ok r'
  ∧ entries r ⊆ entries r'
  ∧ ∃ a sig, handshake net host port = Ok (a, sig) ∧ entries r' !! a = Some p.
Proof.
  intros Hok. unfold connect.
  destruct (handshake net host port) as [[a sig]|e]; [|done].
  destruct (expects sig); [|done]. intros Hg.
  apply get_or_create_ok in Hg as (Hok' & E & Hsub);
    [|by apply registry_ok_connections].
  split_and!; [done | done | by exists a, sig].
Qed.

Lemma connect_all_ok net calls r :
  registry_ok r →
  registry_ok (connect_all net calls r) ∧ entries r ⊆ entries (connect_all net calls r).
Proof.
  revert r. induction calls as [|[[expects host] port] calls IH]; intros r Hok; [done|].
  cbn. destruct (connect net expects host port r) as [[p r']|e] eqn:E; cbn.
  - apply connect_ok in E as (Hok' & Hsub & _); [|done].
    destruct (IH r' Hok') as [? ?]. split; [done|]. by etrans.
  - by apply IH.
Qed.

(** Two connects that resolve to one address return one Proxy, whatever
    other connects ran in between. *)
Lemma connect_same_address net e1 h1 pt1 e2 h2 pt2 calls r a
    (sig1 sig2 : gset nat) p1 r1 p2 r2 :
  registry_ok r →
  handshake net h1 pt1 = Ok (a, sig1) →
  handshake net h2 pt2 = Ok (a, sig2) →
  connect net e1 h1 pt1 r = Ok (p1, r1) →
  connect net e2 h2 pt2 (connect_all net calls r1) = Ok (p2, r2) →
  p1 = p2 ∧ registry_ok r2.
Proof.
  intros Hok Hh1 Hh2 Hc1 Hc2.
  apply connect_ok in Hc1 as (Hok1 & _ & a1 & ? & Ha1 & E1); [|done].
  destruct (connect_all_ok net calls r1 Hok1) as [Hokm Hsubm].
  apply connect_ok in Hc2 as (Hok2 & Hsub2 & a2 & ? & Ha2 & E2); [|done].
  split; [|done].
  assert (a1 = a) as -> by congruence. assert (a2 = a) as -> by congruence.
  eapply lookup_weaken in E1; [|exact Hsubm].
  eapply lookup_weaken in E1; [|exact Hsub2]. congruence.
Qed.

End registry.

Section publish_connect.

Implicit Types (r : ProxyRegistry) (s : System) (a : LocalActor).
Implicit Types (net : gmap nat System) (p : Port).

Lemma publish_ok a req s p s' :
  publish a req s = Ok (p, s') →
  endpoints s !! p = None
  ∧ endpoints s' = <[ p := a ]> (endpoints s)
  ∧ node s' = node s.
Proof.
  unfold publish. case_decide as Hreq.
  - intros [= <- <-]. cbn. split_and!; [|done..].
    apply not_elem_of_dom. intros Hin.
    apply (is_fresh ({[0]} ∪ dom (endpoints s))). by apply elem_of_union_r.
  - destruct (endpoints s !! req) eqn:E; [done|]. by intros [= <- <-].
Qed.

Lemma publish_any_port a s :
  ∃ p s', publish a 0 s = Ok (p, s').
Proof. unfold publish. rewrite decide_True by done. eauto. Qed.

Lemma publish_all_grows calls s :
  endpoints s ⊆ endpoints (publish_all calls s)
  ∧ node (publish_all calls s) = node s.
Proof.
  revert s. induction calls as [|[a req] calls IH]; intros s; [done|].
  cbn. destruct (publish a req s) as [[p s']|e] eqn:E; cbn; [|apply IH].
  apply publish_ok in E as (Hfree & Hs' & Hn).
  destruct (IH s') as [Hsub Hnode]. split; [|by etrans].
  etrans; [|exact Hsub]. rewrite Hs'. by apply insert_subseteq.
Qed.

Lemma handshake_bound net host s p a :
  net !! host = Some s → endpoints s !! p = Some a →
  handshake net host p = Ok ((node s, actor_id a), signature a).
Proof. intros Hs Hp. unfold handshake. by rewrite Hs, Hp. Qed.

(** C2.  In a registry whose entries and Proxy objects correspond: no two
    Proxy objects have one address; [get_or_create] returns the entry of
    the address when there is one, and otherwise (with a Connection to the
    node) creates one Proxy object that was not there and enters it; and
    two connects that resolve to one address, so also two connects to one
    (host, port), return the same Proxy object, whatever connects of other
    callers take their turn between the two. *)
Theorem proxy_identity net r :
  registry_ok r →
  (∀ p1 p2 x1 x2,
      proxies r !! p1 = Some x1 → proxies r !! p2 = Some x2 →
      address x1 = address x2 → p1 = p2)
  ∧ (∀ addr p, entries r !! addr = Some p → get_or_create addr r = Ok (p, r))
  ∧ (∀ addr, entries r !! addr = None → addr.1 ∈ connections r →
      ∃ p r', get_or_create addr r = Ok (p, r')
              ∧ proxies r !! p = None
              ∧ proxies r' = <[ p := {| address := addr; state := alive |} ]> (proxies r)
              ∧ entries r' = <[ addr := p ]> (entries r)
              ∧ registry_ok r')
  ∧ (∀ e1 e2 host port calls p1 r1 p2 r2,
      connect net e1 host port r = Ok (p1, r1) →
      connect net e2 host port (connect_all net calls r1) = Ok (p2, r2) →
      p1 = p2 ∧ registry_ok r2)
  ∧ (∀ e1 h1 pt1 e2 h2 pt2 calls addr sig1 sig2 p1 r1 p2 r2,
      handshake net h1 pt1 = Ok (addr, sig1) →
      handshake net h2 pt2 = Ok (addr, sig2) →
      connect net e1 h1 pt1 r = Ok (p1, r1) →
      connect net e2 h2 pt2 (connect_all net calls r1) = Ok (p2, r2) →
      p1 = p2 ∧ registry_ok r2).
Proof.
  intros Hok. split_and!.
  - intros p1 p2 x1 x2. by apply registry_ok_unique.
  - intros addr p. apply get_or_create_existing.
  - intros addr E Hc.
    destruct (get_or_create_new r addr Hok E Hc) as (Hg & Hp & Hok').
    eexists _, _. split_and!; [exact Hg | done | done | done | done].
  - intros e1 e2 host port calls p1 r1 p2 r2 Hc1 Hc2.
    destruct (connect_ok _ _ _ _ _ _ _ Hok Hc1) as (_ & _ & addr & sig & Hh & _).
    by eapply (connect_same_address net e1 host port e2 host port calls r addr sig sig).
  - intros e1 h1 pt1 e2 h2 pt2 calls addr sig1 sig2 p1 r1 p2 r2.
    by apply connect_same_address.
Qed.

(** C5.  Two publishes of one actor with requested port 0 both succeed and
    are assigned different ports, and the handshake on either port names
    the same actor; in general two successful publishes of one actor, with
    any requested ports and any publishes in between, are assigned
    different ports, both endpoints stay bound to the actor, and
    connecting to the one and then to the other returns the same Proxy. *)
Theorem publish_assigns_distinct_ports a s :
  (∃ p1 s1 p2 s2,
      publish a 0 s = Ok (p1, s1) ∧ publish a 0 s1 = Ok (p2, s2)
      ∧ p1 ≠ p2
      ∧ ∀ net host, net !! host = Some s2 →
          handshake net host p1 = Ok ((node s, actor_id a), signature a)
          ∧ handshake net host p2 = Ok ((node s, actor_id a), signature a))
  ∧ (∀ req1 req2 calls p1 s1 p2 s2,
      publish a req1 s = Ok (p1, s1) →
      publish a req2 (publish_all calls s1) = Ok (p2, s2) →
      p1 ≠ p2
      ∧ endpoints s2 !! p1 = Some a
      ∧ endpoints s2 !! p2 = Some a
      ∧ ∀ net host e1 e2 r x1 r1 x2 r2,
          net !! host = Some s2 → registry_ok r →
          connect net e1 host p1 r = Ok (x1, r1) →
          connect net e2 host p2 r1 = Ok (x2, r2) →
          x1 = x2).
Proof.
  assert (∀ req1 req2 calls p1 s1 p2 s2,
      publish a req1 s = Ok (p1, s1) →
      publish a req2 (publish_all calls s1) = Ok (p2, s2) →
      p1 ≠ p2 ∧ endpoints s2 !! p1 = Some a ∧ endpoints s2 !! p2 = Some a
      ∧ node s2 = node s) as Hgen.
  { intros req1 req2 calls p1 s1 p2 s2 H1 H2.
    apply publish_ok in H1 as (_ & Hs1 & Hn1).
    apply publish_ok in H2 as (Hfree & Hs2 & Hn2).
    destruct (publish_all_grows calls s1) as [Hsub Hnm].
    assert (endpoints (publish_all calls s1) !! p1 = Some a) as Hp1.
    { eapply lookup_weaken; [|exact Hsub]. rewrite Hs1. apply lookup_insert_eq. }
    assert (p1 ≠ p2) as Hne by (intros ->; congruence).
    rewrite Hs2. split_and!; [done | | apply lookup_insert_eq | congruence].
    by rewrite lookup_insert_ne. }
  split.
  - destruct (publish_any_port a s) as (p1 & s1 & H1).
    destruct (publish_any_port a s1) as (p2 & s2 & H2).
    exists p1, s1, p2, s2.
    destruct (Hgen 0 0 [] p1 s1 p2 s2 H1 H2) as (Hne & E1 & E2 & Hn).
    split_and!; [done..|]. intros net host Hs2. rewrite <- Hn.
    split; by apply handshake_bound.
  - intros req1 req2 calls p1 s1 p2 s2 H1 H2.
    destruct (Hgen req1 req2 calls p1 s1 p2 s2 H1 H2) as (Hne & E1 & E2 & Hn).
    split_and!; [done..|].
    intros net host e1 e2 r x1 r1 x2 r2 Hs2 Hok Hc1 Hc2.
    eapply (connect_same_address net e1 host p1 e2 host p2 [] r);
      [done | by apply handshake_bound | by apply handshake_bound | done | done].
Qed.

End publish_connect.

(** ** The wildcard sentinel *)

Import AnyType.

(** C8.  Compared with a value of [any_type], every value of every type is
    equal and none is unequal, on either side of the operator, and so is a
    value of [any_type] itself. *)
Theorem any_type_equals_everything (T : Type) (x : T) (u w : any_type) :
  eq_T_any x u = true
  ∧ eq_any_T u x = true
  ∧ eq_any_any u w = true
  ∧ ne_T_any x u = false
  ∧ ne_any_T u x = false
  ∧ ne_any_any u w = false.
Proof. by split_and!. Qed.

(** ** The model at work *)

(** Appends, a take at the tail, a prepend and takes at the head; the third
    [try_take_head] finds the queue empty. *)
Example run_mixed :
  (run make [Append 1; Append 2; TakeTail; Prepend 3; TakeHead; TakeHead; TakeHead]).2
  = [2; 3; 1].
Proof. vm_compute. reflexivity. Qed.

(** Every removed node was deleted: only the dummy is left. *)
Example run_mixed_store :
  size (nodes (run make [Append 1; Append 2; TakeTail; Prepend 3; TakeHead; TakeHead]).1) = 1.
Proof. vm_compute. reflexivity. Qed.

(** The timed take on a queue holding 7, timeout 10, spurious wake-ups at 3
    and 4: the item is returned when the clock shows 10. *)
Example timed_take_nonempty :
  (try_take_head_for [3; 4]%Z 10 (append 7 make).1 0).1.1 = Some 7
  ∧ (try_take_head_for [3; 4]%Z 10 (append 7 make).1 0).2 = 10%Z.
Proof. vm_compute. done. Qed.

(** ** The theorems at concrete queues and registries *)

(** The timed take on a new queue, timeout 5, clock at 0. *)
Lemma try_take_head_for_empty_returns_at_once_witness :
  try_take_head_for [] 5 (make (T:=nat)) 0 = (None, make, 0%Z).
Proof.
  apply (try_take_head_for_empty_returns_at_once make [] 5 0).
  - exists []. split_and!; [reflexivity | apply NoDup_singleton | reflexivity].
  - reflexivity.
Defined.

(** One system at host 0 with actor 2 published at port 4000; two connects
    from an empty registry. *)
Lemma proxy_identity_witness :
  registry_ok empty_registry
  ∧ ∃ p r1 r2,
      connect {[ 0 := {| node := 1;
                         endpoints := {[ 4000 := {| actor_id := 2; signature := ∅ |} ]} |} ]}
        (λ _, true) 0 4000 empty_registry = Ok (p, r1)
      ∧ connect {[ 0 := {| node := 1;
                           endpoints := {[ 4000 := {| actor_id := 2; signature := ∅ |} ]} |} ]}
          (λ _, true) 0 4000 r1 = Ok (p, r2).
Proof.
  split; [exact registry_ok_empty|].
  set (net := {[ 0 := {| node := 1;
                         endpoints := {[ 4000 := {| actor_id := 2; signature := ∅ |} ]} |} ]}
              : gmap nat System).
  destruct (proxy_identity net empty_registry registry_ok_empty)
    as (_ & _ & _ & Hsame & _).
  set (r1 := after (connect net (λ _, true) 0 4000 empty_registry) empty_registry).
  set (r2 := after (connect net (λ _, true) 0 4000 r1) r1).
  assert (connect net (λ _, true) 0 4000 empty_registry = Ok (0, r1)) as E1
    by (vm_compute; reflexivity).
  assert (connect net (λ _, true) 0 4000 r1 = Ok (0, r2)) as E2
    by (vm_compute; reflexivity).
  exists 0, r1, r2. split; [exact E1|].
  destruct (Hsame (λ _, true) (λ _, true) 0 4000 [] 0 r1 0 r2 E1 E2) as [_ _].
  exact E2.
Defined.

(** Two appends, a prepend and three takes: 3 comes out first, then 1,
    then 2. *)
Lemma take_head_order_witness :
  (run make [Append 1; Append 2; Prepend 3; TakeHead; TakeHead; TakeHead]).2 = [3; 1; 2]
  ∧ before 1 2 [3; 1; 2]
  ∧ before 3 1 [3; 1; 2].
Proof.
  set (ops := [Append 1; Append 2; Prepend 3; TakeHead; TakeHead; TakeHead]).
  assert ((run make ops).2 = [3; 1; 2]) as Hrun by (vm_compute; reflexivity).
  assert (existsb is_take_tail ops = false) as Hno by reflexivity.
  assert (NoDup (inserted ops)) as Hnd.
  { apply (bool_decide_unpack _). vm_compute. exact I. }
  destruct (take_head_order ops Hno Hnd) as (_ & Hfifo & Hprio).
  rewrite Hrun in Hfifo, Hprio. split; [exact Hrun|]. split.
  - apply (Hfifo [] [] [Prepend 3; TakeHead; TakeHead; TakeHead] 1 2 eq_refl).
    apply (bool_decide_unpack _). vm_compute. exact I.
  - apply (Hprio [] [Append 2] [TakeHead; TakeHead; TakeHead] 1 3 eq_refl).
    + apply (bool_decide_unpack _). vm_compute. exact I.
    + apply (bool_decide_unpack _). vm_compute. exact I.
Defined.


(** An insertion into a new queue notifies. *)
Lemma notify_iff_was_empty_witness :
  (append 7 (make (T:=nat))).2 = true ∧ (prepend 7 (make (T:=nat))).2 = true.
Proof.
  assert (wf (make (T:=nat))) as Hwf.
  { exists []. split_and!; [reflexivity | apply NoDup_singleton | reflexivity]. }
  destruct (notify_iff_was_empty make 7 Hwf) as [[_ Ha] [_ Hp]].
  split; [apply Ha | apply Hp]; reflexivity.
Defined.

(** Both takes on a new queue. *)
Lemma take_on_empty_is_noop_witness :
  try_take_head (make (T:=nat)) = (None, make)
  ∧ try_take_tail (make (T:=nat)) = (None, make).
Proof.
  assert (wf (make (T:=nat))) as Hwf.
  { exists []. split_and!; [reflexivity | apply NoDup_singleton | reflexivity]. }
  destruct (take_on_empty_is_noop make Hwf eq_refl) as (Hh & Ht & _).
  exact (conj Hh Ht).
Defined.


(** ** More of the queue: the timed take, ownership of nodes, the destructor *)

Section queue_lifetime.

Context {T : Type}.

Implicit Types (h : gmap node_pointer (Queue.node T)) (q : thread_safe_queue T).
Implicit Types (cells : list (node_pointer * T)) (l : node_pointer).
Implicit Types (v : T) (b : bool) (ops : list (op T)).

Lemma wait_until_answer (wakeups : list Z) abs_time (pred : bool) now :
  (wait_until wakeups abs_time pred now).1 = pred.
Proof.
  revert now. induction wakeups as [|t wakeups IH]; intros now;
    destruct pred; simpl; try done.
  case_decide; [done | apply IH].
Qed.

(** While the predicate is false the wait ends at the deadline, or at once
    when the deadline has passed. *)
Lemma wait_until_timeout (wakeups : list Z) abs_time now :
  wait_until wakeups abs_time false now = (false, Z.max now abs_time).
Proof.
  revert now. induction wakeups as [|t wakeups IH]; intros now; simpl; [done|].
  case_decide; [done|]. rewrite IH. f_equal. lia.
Qed.

Lemma int64_wrap_small (z : Z) :
  (- 2 ^ 63 ≤ z < 2 ^ 63)%Z → int64_wrap z = z.
Proof. intros Hz. unfold int64_wrap. rewrite Z.mod_small by lia. lia. Qed.

(** What the timed take returns and leaves is what the plain take does. *)
Lemma try_take_head_for_outcome q (wakeups : list Z) rel_time now :
  (try_take_head_for wakeups rel_time q now).1 = try_take_head q.
Proof.
  unfold try_take_head_for, try_take_head, try_take_head_impl, wait_for.
  pose proof (wait_until_answer wakeups (int64_wrap (now + rel_time))
                (bool_decide (load_next (nodes q) (head_ q) = None)) now) as Hb.
  destruct (wait_until _ _ _ _) as [is_empty now']. simpl in Hb. subst is_empty.
  case_bool_decide; [done|]. by destruct (load_next _ _).
Qed.

Lemma try_take_head_cons_state q l v cells :
  repr q ((l, v) :: cells) →
  (try_take_head q).2 =
    Queue (delete (head_ q)
             (alter (set_prev None) l (alter (set_value None) l (nodes q))))
      l (tail_ q).
Proof.
  intros ([Hhd Hc] & _ & _). simpl in *.
  unfold try_take_head, try_take_head_impl, load_next. by rewrite Hhd.
Qed.

Lemma try_take_tail_snoc_state q tl v cells :
  repr q (cells ++ [(tl, v)]) →
  (try_take_tail q).2 =
    Queue (delete tl
             (alter (set_next None) (default (head_ q) (last cells.*1)) (nodes q)))
      (head_ q) (default (head_ q) (last cells.*1)).
Proof.
  intros (Hc & Hnd & Htl).
  rewrite fmap_app in Hnd, Htl. simpl in Hnd, Htl.
  rewrite last_snoc in Htl. simpl in Htl.
  apply NoDup_cons in Hnd as [Hnin _].
  pose proof (chain_last _ _ _ _ _ _ _ Hc) as Hlast.
  unfold try_take_tail, load_prev. rewrite Htl, bool_decide_eq_false_2.
  - by rewrite Hlast.
  - intros E. apply Hnin. rewrite <- E. apply elem_of_app. right.
    apply list_elem_of_here.
Qed.

Lemma owned_wf q : owned q → wf q.
Proof. intros (cells & Hr & _). by exists cells. Qed.

Lemma owned_make : owned (make (T:=T)).
Proof.
  exists []. split; [apply repr_make|].
  unfold make. simpl. rewrite dom_singleton_L. by rewrite union_empty_r_L.
Qed.

Lemma owned_append b v q : owned q → owned (append_ b v q).1.
Proof.
  intros (cells & Hr & Hd). eexists. split; [by apply repr_append|].
  unfold append_. cbn. rewrite !dom_alter_L, dom_insert_L, Hd, fmap_app.
  apply set_eq. intros x.
  rewrite !elem_of_union, !elem_of_list_to_set, elem_of_app, !elem_of_singleton.
  cbn. rewrite list_elem_of_singleton, elem_of_cons. tauto.
Qed.

Lemma owned_prepend b v q : owned q → owned (prepend_ b v q).1.
Proof.
  intros (cells & Hr & Hd). eexists. split; [by apply repr_prepend|].
  assert (∀ d : gset node_pointer,
            d = {[new_node (nodes q)]} ∪ dom (nodes q) →
            d = list_to_set (head_ q :: ((new_node (nodes q), v) :: cells).*1))
    as Hgoal.
  { intros d ->. rewrite Hd. apply set_eq. intros x. cbn.
    rewrite !elem_of_union, !elem_of_list_to_set, !elem_of_singleton. tauto. }
  unfold prepend_. destruct (load_next _ _); cbn; apply Hgoal;
    by rewrite !dom_alter_L, dom_insert_L.
Qed.

Lemma owned_try_take_head q : owned q → owned (try_take_head q).2.
Proof.
  intros (cells & Hr & Hd). destruct cells as [|[l v] cells].
  - rewrite (repr_take_head_nil _ Hr). by exists [].
  - exists cells. split; [by apply (repr_take_head_cons _ _ _ _ Hr)|].
    rewrite (try_take_head_cons_state _ _ _ _ Hr). cbn.
    rewrite dom_delete_L, !dom_alter_L, Hd.
    destruct Hr as (_ & [Hnin _]%NoDup_cons & _). cbn in *.
    apply set_eq. intros x.
    rewrite elem_of_difference, !elem_of_union, !elem_of_singleton,
      !elem_of_list_to_set.
    split; [tauto|]. intros Hx. split; [by right|].
    intros ->. apply Hnin. by apply elem_of_cons.
Qed.

Lemma owned_try_take_tail q : owned q → owned (try_take_tail q).2.
Proof.
  intros (cells & Hr & Hd). destruct cells as [|[tl v] cells _] using rev_ind.
  - rewrite (repr_take_tail_nil _ Hr). by exists [].
  - exists cells. split; [by apply (repr_take_tail_snoc _ _ _ _ Hr)|].
    rewrite (try_take_tail_snoc_state _ _ _ _ Hr). cbn.
    rewrite dom_delete_L, dom_alter_L, Hd.
    destruct Hr as (_ & Hnd & _).
    rewrite fmap_app, app_comm_cons in Hnd.
    apply NoDup_app in Hnd as (_ & Hdisj & _).
    apply set_eq. intros x.
    rewrite elem_of_difference, !elem_of_list_to_set, elem_of_singleton,
      fmap_app, app_comm_cons, elem_of_app.
    cbn. rewrite list_elem_of_singleton, elem_of_union, elem_of_singleton,
      elem_of_list_to_set, elem_of_cons.
    split; [tauto|]. intros Hx. split; [by left|].
    intros ->. apply (Hdisj tl); [by apply elem_of_cons | apply list_elem_of_here].
Qed.

Lemma owned_run q ops : owned q → owned (run q ops).1.
Proof.
  revert q. induction ops as [|o ops IH]; intros q Ho; [done|].
  rewrite run_cons. cbn [fst]. apply IH. destruct o; cbn.
  - by apply (owned_append true).
  - by apply (owned_prepend true).
  - by apply owned_try_take_head.
  - by apply owned_try_take_tail.
Qed.

Lemma owned_size q : owned q → size (nodes q) = S (length (items q)).
Proof.
  intros (cells & Hr & Hd). rewrite (repr_items _ _ Hr).
  rewrite <- size_dom, Hd, size_list_to_set by apply Hr.
  cbn. by rewrite !length_fmap.
Qed.

(** The destructor's loop along a chain deletes the chain. *)
Lemma destroy_chain h pv l val cells fuel :
  chain h pv l val cells →
  NoDup (l :: cells.*1) →
  length cells < fuel →
  ∃ h', destroy_nodes fuel h (Some l) = Some h'
        ∧ dom h' = dom h ∖ list_to_set (l :: cells.*1).
Proof.
  revert h pv l val fuel.
  induction cells as [|[l' v] cells IH]; intros h pv l val fuel Hc Hnd Hlen;
    (destruct fuel as [|fuel]; [simpl in Hlen; lia|]); simpl.
  - unfold load_next. rewrite Hc. simpl. exists (delete l h).
    split; [by destruct fuel|]. rewrite dom_delete_L. cbn.
    by rewrite union_empty_r_L.
  - destruct Hc as [Hl Hc]. unfold load_next. rewrite Hl. simpl.
    apply NoDup_cons in Hnd as [Hnin Hnd].
    destruct (IH (delete l h) (Some l) l' (Some v) fuel) as (h' & Hd & Hdom).
    + apply chain_frame with h; [done|]. intros x Hin.
      apply lookup_delete_ne. by intros ->.
    + done.
    + simpl in Hlen. lia.
    + exists h'. split; [done|]. rewrite Hdom, dom_delete_L.
      apply set_eq. intros x. cbn.
      rewrite !elem_of_difference, !elem_of_union, !elem_of_singleton. tauto.
Qed.

End queue_lifetime.

Section queue_more.

Context {T : Type}.

Implicit Types (q : thread_safe_queue T) (v : T) (ops : list (op T)).

(** X1.  Every operation of the class keeps the class invariant: from a
    well-formed queue, [append], [prepend], their internal variants, both
    takes and the timed take each leave a well-formed queue. *)
Theorem class_invariant_kept q v (wakeups : list Z) rel_time now :
  wf q →
  wf (append v q).1
  ∧ wf (prepend v q).1
  ∧ wf (internal_append v q).1
  ∧ wf (internal_prepend v q).1
  ∧ wf (try_take_head q).2
  ∧ wf (try_take_tail q).2
  ∧ wf (try_take_head_for wakeups rel_time q now).1.2.
Proof.
  intros Hwf. split_and!.
  - by apply (wf_append true).
  - by apply (wf_prepend true).
  - by apply (wf_append false).
  - by apply (wf_prepend false).
  - by apply wf_try_take_head.
  - by apply wf_try_take_tail.
  - rewrite try_take_head_for_outcome. by apply wf_try_take_head.
Qed.

(** X2.  With no other thread at work, the timed take returns the item and
    leaves the queue exactly as the plain [try_take_head()] does.  The clock
    stays where it was when [empty()] holds.  Otherwise the call returns
    when the clock reaches the deadline, [now + rel_time] computed in the
    clock's signed 64-bit ticks, whatever the spurious wake-ups: exactly
    [rel_time] later when [rel_time] is not negative and the deadline is in
    range, and at once when the deadline lies in the past, as it does for a
    negative [rel_time] or a sum that has wrapped around. *)
Theorem timed_take_characterized q (wakeups : list Z) rel_time now :
  wf q →
  (try_take_head_for wakeups rel_time q now).1 = try_take_head q
  ∧ (try_take_head_for wakeups rel_time q now).2
    = (if empty q then now else Z.max now (int64_wrap (now + rel_time)))
  ∧ (empty q = false → (0 ≤ rel_time)%Z →
     (- 2 ^ 63 ≤ now)%Z → (now + rel_time < 2 ^ 63)%Z →
     (try_take_head_for wakeups rel_time q now).2 = (now + rel_time)%Z)
  ∧ (empty q = false → (int64_wrap (now + rel_time) ≤ now)%Z →
     (try_take_head_for wakeups rel_time q now).2 = now).
Proof.
  intros Hwf.
  assert ((try_take_head_for wakeups rel_time q now).2
          = if empty q then now else Z.max now (int64_wrap (now + rel_time)))
    as Hclock.
  { pose proof (empty_items q Hwf) as Hempty.
    destruct Hwf as [cells Hr]. rewrite (repr_items _ _ Hr) in Hempty.
    pose proof Hr as (Hc & _ & _).
    unfold try_take_head_for, try_take_head_impl, load_next, wait_for.
    destruct cells as [|[l v] cells]; simpl in Hc.
    - rewrite Hc. cbn. rewrite (proj2 Hempty eq_refl). by destruct wakeups.
    - destruct Hc as [Hhd Hc]. rewrite Hhd. cbn.
      rewrite wait_until_timeout.
      by destruct (empty q); [destruct Hempty as [E _]; specialize (E eq_refl)|]. }
  split_and!; [apply try_take_head_for_outcome | done | |].
  - intros He Hrel Hnow Hmax. rewrite Hclock, He.
    rewrite int64_wrap_small by lia. lia.
  - intros He Hpast. rewrite Hclock, He. lia.
Qed.

(** X3.  After any history of calls on a new queue the store holds exactly
    one node per queued item besides the dummy: every node a take removes
    from the list is deleted, none is leaked. *)
Theorem nodes_match_items ops :
  size (nodes (run make ops).1) = S (length (items (run make ops).1)).
Proof. apply owned_size, owned_run, owned_make. Qed.

(** X4.  The destructor, run on the queue any history leaves behind, ends
    and deletes every node: given as many rounds as there are nodes (or
    more) its loop reaches a null pointer with the store empty. *)
Theorem destructor_frees_every_node ops extra :
  destructor (size (nodes (run make ops).1) + extra) (run make ops).1 = Some ∅.
Proof.
  pose proof (owned_run make ops owned_make) as Ho.
  rewrite (owned_size _ Ho).
  destruct Ho as (cells & Hr & Hd).
  rewrite (repr_items _ _ Hr), length_fmap.
  destruct Hr as (Hc & Hnd & _).
  destruct (destroy_chain _ _ _ _ _ (S (length cells) + extra) Hc Hnd)
    as (h' & Hh' & Hdom); [lia|].
  unfold destructor. rewrite Hh'. f_equal.
  apply dom_empty_iff_L. rewrite Hdom, Hd. apply difference_diag_L.
Qed.

(** X5.  After any history of calls on a new queue, [empty()] answers true
    exactly when no item is queued. *)
Theorem empty_iff_no_items ops :
  empty (run make ops).1 = true ↔ items (run make ops).1 = [].
Proof. apply empty_items, wf_run, wf_make. Qed.

(** X6.  The assertions of [prepend] never fire on a queue any history of
    calls has produced: [head->next] is null exactly when
    [head_ == tail_]. *)
Theorem prepend_assertions_hold ops :
  prepend_asserts (run make ops).1 = true.
Proof.
  destruct (wf_run make ops wf_make) as [cells Hr].
  pose proof (repr_empty _ _ Hr) as Hempty. pose proof Hr as (Hc & _ & _).
  unfold prepend_asserts, load_next. rewrite (chain_head _ _ _ _ _ Hc). cbn.
  destruct cells as [|[l v] cells]; cbn; apply bool_decide_eq_true.
  - by apply Hempty.
  - intros E. by apply Hempty in E.
Qed.

(** X7.  An item prepended is the item the next [try_take_head] returns,
    and the queue then holds the items it held before. *)
Theorem prepend_take_head_round_trip q v :
  wf q →
  (try_take_head (prepend v q).1).1 = Some v
  ∧ items (try_take_head (prepend v q).1).2 = items q.
Proof.
  intros Hwf. unfold prepend.
  destruct (try_take_head_cons (prepend_ true v q).1 v (items q))
    as (Hres & _ & Hi); [by apply wf_prepend | by apply items_prepend | done].
Qed.

(** X8.  Each of the four operations acts on the sequence of queued items
    as the operation of a double-ended sequence it is named after, returns
    what that operation returns, and keeps the queue well formed. *)
Theorem step_refines_deque q o :
  wf q →
  items (step q o).1 = (deque_step (items q) o).1
  ∧ (step q o).2 = (deque_step (items q) o).2
  ∧ wf (step q o).1.
Proof.
  intros Hwf. split_and!; [| |by apply wf_step].
  - destruct o as [v|v| |]; cbn; unfold append, prepend.
    + by apply items_append.
    + by apply items_prepend.
    + destruct (items q) as [|v vs] eqn:E.
      * by rewrite try_take_head_nil.
      * by destruct (try_take_head_cons _ _ _ Hwf E) as (_ & _ & ->).
    + destruct (items q) as [|v vs _] eqn:E using rev_ind.
      * by rewrite try_take_tail_nil.
      * destruct (try_take_tail_snoc _ _ _ Hwf E) as (_ & _ & ->).
        by rewrite removelast_last.
  - destruct o as [v|v| |]; cbn; try done.
    + destruct (items q) as [|v vs] eqn:E.
      * by rewrite try_take_head_nil.
      * by destruct (try_take_head_cons _ _ _ Hwf E) as (-> & _).
    + destruct (items q) as [|v vs _] eqn:E using rev_ind.
      * by rewrite try_take_tail_nil.
      * destruct (try_take_tail_snoc _ _ _ Hwf E) as (-> & _).
        by rewrite last_snoc.
Qed.

End queue_more.

(** ** Looking up and parsing configuration options *)

Section config_options.

Implicit Types (opts : list ConfigOption.config_option) (long_name : string).
Implicit Types (opt : ConfigOption.config_option) (c : Ascii.ascii).

Lemma find_from_first i opts long_name :
  match ConfigOption.find_from i opts long_name with
  | Some (j, opt) =>
      ∃ k, j = i + k ∧ opts !! k = Some opt ∧ ConfigOption.name opt = long_name
           ∧ ∀ k' o, k' < k → opts !! k' = Some o → ConfigOption.name o ≠ long_name
  | None => ∀ o, o ∈ opts → ConfigOption.name o ≠ long_name
  end.
Proof.
  revert i. induction opts as [|opt opts IH]; intros i; simpl.
  - intros o Hin. by apply elem_of_nil in Hin.
  - case_decide as Hname.
    + exists 0. split_and!; [lia | done | done |]. intros k' o Hlt. lia.
    + specialize (IH (S i)).
      destruct (ConfigOption.find_from (S i) opts long_name) as [[j o']|].
      * destruct IH as (k & -> & Hk & Hn & Hfirst).
        exists (S k). split_and!; [lia | done | done |].
        intros [|k'] o Hlt; simpl; [by intros [= <-]|].
        apply Hfirst. lia.
      * intros o [->|Hin]%elem_of_cons; [done | by apply IH].
Qed.

Lemma find_short_from_first i opts c :
  match ConfigOption.find_short_from i opts c with
  | Some (j, opt) =>
      ∃ k, j = i + k ∧ opts !! k = Some opt ∧ ConfigOption.short_name opt = c
           ∧ ∀ k' o, k' < k → opts !! k' = Some o → ConfigOption.short_name o ≠ c
  | None => ∀ o, o ∈ opts → ConfigOption.short_name o ≠ c
  end.
Proof.
  revert i. induction opts as [|opt opts IH]; intros i; simpl.
  - intros o Hin. by apply elem_of_nil in Hin.
  - case_decide as Hname.
    + exists 0. split_and!; [lia | done | done |]. intros k' o Hlt. lia.
    + specialize (IH (S i)).
      destruct (ConfigOption.find_short_from (S i) opts c) as [[j o']|].
      * destruct IH as (k & -> & Hk & Hn & Hfirst).
        exists (S k). split_and!; [lia | done | done |].
        intros [|k'] o Hlt; simpl; [by intros [= <-]|].
        apply Hfirst. lia.
      * intros o [->|Hin]%elem_of_cons; [done | by apply IH].
Qed.

Lemma c_str_no_nul (s s1 s2 : string) :
  ConfigOption.c_str s ≠ s1 +:+ String Ascii.zero s2.
Proof.
  revert s1. induction s as [|a s IH]; intros s1; simpl.
  - by destruct s1.
  - case_decide as Ha; [by destruct s1|].
    destruct s1 as [|b s1]; simpl.
    + intros [= -> _]. done.
    + intros [= _ E]. by apply IH in E.
Qed.

(** X9.  [find(long_name)] returns the first option of [opts_] whose name
    is [long_name]: the option at the returned position has that name and
    no option before it has; it returns null exactly when no option has
    that name. *)
Theorem find_returns_first_match opts long_name :
  match ConfigOption.find opts long_name with
  | Some (k, opt) =>
      opts !! k = Some opt ∧ ConfigOption.name opt = long_name
      ∧ ∀ k' o, k' < k → opts !! k' = Some o → ConfigOption.name o ≠ long_name
  | None => ∀ o, o ∈ opts → ConfigOption.name o ≠ long_name
  end.
Proof.
  unfold ConfigOption.find.
  pose proof (find_from_first 0 opts long_name) as H.
  destruct (ConfigOption.find_from 0 opts long_name) as [[j opt]|]; [|done].
  by destruct H as (k & -> & ?).
Qed.

(** X10.  [find(short_name)] returns the first option of [opts_] with that
    short name, and null exactly when there is none. *)
Theorem find_short_returns_first_match opts c :
  match ConfigOption.find_short opts c with
  | Some (k, opt) =>
      opts !! k = Some opt ∧ ConfigOption.short_name opt = c
      ∧ ∀ k' o, k' < k → opts !! k' = Some o → ConfigOption.short_name o ≠ c
  | None => ∀ o, o ∈ opts → ConfigOption.short_name o ≠ c
  end.
Proof.
  unfold ConfigOption.find_short.
  pose proof (find_short_from_first 0 opts c) as H.
  destruct (ConfigOption.find_short_from 0 opts c) as [[j opt]|]; [|done].
  by destruct H as (k & -> & ?).
Qed.

(** X11.  [name()] hands out a C string, so a [long_name] with a NUL
    character in it equals no option's name: [find] returns null for it
    whatever the options are. *)
Theorem find_name_with_nul opts (s1 s2 : string) :
  ConfigOption.find opts (s1 +:+ String Ascii.zero s2) = None.
Proof.
  unfold ConfigOption.find. generalize 0.
  induction opts as [|opt opts IH]; intros i; simpl; [done|].
  rewrite decide_False; [apply IH | apply c_str_no_nul].
Qed.

Context {config_value ec : Type}.
Context (type_mismatch : ec).
Context (config_value_parse : string → ec + config_value).
Context (holds_alternative : config_value → bool).

(** X12.  Whatever [config_option_impl<T>::parse] returns as a value is the
    value [config_value::parse] produced and passes the option's own
    [check]; an error it returns is the error of [config_value::parse], or
    [type_mismatch] for a parsed value that does not hold a [T]. *)
Theorem parse_agrees_with_check (arg : string) :
  match ConfigOption.parse type_mismatch config_value_parse holds_alternative arg with
  | inr x =>
      config_value_parse arg = inr x
      ∧ ConfigOption.check type_mismatch holds_alternative x = None
  | inl e =>
      config_value_parse arg = inl e
      ∨ (e = type_mismatch
         ∧ ∃ x, config_value_parse arg = inr x
                ∧ ConfigOption.check type_mismatch holds_alternative x
                  = Some type_mismatch)
  end.
Proof.
  unfold ConfigOption.parse, ConfigOption.check.
  destruct (config_value_parse arg) as [e|x] eqn:E; [by left|].
  destruct (holds_alternative x) eqn:Hx; simpl.
  - by rewrite Hx.
  - right. split; [done|]. exists x. by rewrite Hx.
Qed.

End config_options.

(** ** The further theorems at concrete queues *)

(** The operations on a queue holding 7. *)
Lemma class_invariant_kept_witness :
  wf (append 8 (append 7 make).1).1
  ∧ wf (try_take_head (append 7 make).1).2
  ∧ wf (try_take_tail (append 7 make).1).2.
Proof.
  assert (wf (append 7 make).1) as Hwf.
  { exists [(1, 7)]. split_and!.
    - split; reflexivity.
    - apply (bool_decide_unpack _). vm_compute. exact I.
    - reflexivity. }
  destruct (class_invariant_kept (append 7 make).1 8 [] 5 0 Hwf)
    as (Ha & _ & _ & _ & Hh & Ht & _).
  exact (conj Ha (conj Hh Ht)).
Defined.

(** The timed take at time 0 on a queue holding 7, with spurious wake-ups
    at 2 and 9: with timeout 5 the item comes at time 5; with a timeout of
    2562048 hours in nanoseconds, past the clock's range, and with a
    negative timeout it comes at once. *)
Lemma timed_take_characterized_witness :
  (try_take_head_for [2; 9]%Z 5 (append 7 make).1 0).1 = try_take_head (append 7 make).1
  ∧ (try_take_head_for [2; 9]%Z 5 (append 7 make).1 0).2 = 5%Z
  ∧ (try_take_head_for [2; 9]%Z 9223372800000000000 (append 7 make).1 0).2 = 0%Z
  ∧ (try_take_head_for [2; 9]%Z (-3) (append 7 make).1 0).2 = 0%Z.
Proof.
  assert (wf (append 7 make).1) as Hwf.
  { exists [(1, 7)]. split_and!.
    - split; reflexivity.
    - apply (bool_decide_unpack _). vm_compute. exact I.
    - reflexivity. }
  destruct (timed_take_characterized (append 7 make).1 [2; 9]%Z 5 0 Hwf)
    as (Hout & _ & Hin & _).
  destruct (timed_take_characterized (append 7 make).1 [2; 9]%Z
              9223372800000000000 0 Hwf) as (_ & _ & _ & Hover).
  destruct (timed_take_characterized (append 7 make).1 [2; 9]%Z (-3) 0 Hwf)
    as (_ & _ & _ & Hneg).
  split_and!.
  - exact Hout.
  - apply Hin; [reflexivity | lia | lia | lia].
  - apply Hover; [reflexivity | by vm_compute].
  - apply Hneg; [reflexivity | by vm_compute].
Defined.

(** Prepending 9 to a queue holding 7 and taking it back. *)
Lemma prepend_take_head_round_trip_witness :
  (try_take_head (prepend 9 (append 7 make).1).1).1 = Some 9
  ∧ items (try_take_head (prepend 9 (append 7 make).1).1).2 = [7].
Proof.
  assert (wf (append 7 make).1) as Hwf.
  { exists [(1, 7)]. split_and!.
    - split; reflexivity.
    - apply (bool_decide_unpack _). vm_compute. exact I.
    - reflexivity. }
  exact (prepend_take_head_round_trip (append 7 make).1 9 Hwf).
Defined.

(** A take at the tail of a queue holding 7. *)
Lemma step_refines_deque_witness :
  items (step (append 7 make).1 TakeTail).1 = []
  ∧ (step (append 7 make).1 TakeTail).2 = Some 7.
Proof.
  assert (wf (append 7 make).1) as Hwf.
  { exists [(1, 7)]. split_and!.
    - split; reflexivity.
    - apply (bool_decide_unpack _). vm_compute. exact I.
    - reflexivity. }
  destruct (step_refines_deque (append 7 make).1 TakeTail Hwf) as (Hi & Hr & _).
  exact (conj Hi Hr).
Defined.
